(** * Traycer Mini: plan parsing, step refinement and the plan controller

    A shallow embedding of the TypeScript sources of the extension:

    - [planService.ts]: [parsePlanIntoSteps], [cleanMarkdown], [refineStep];
    - [extension.ts]: [updateStepIndices] and the message handler installed by
      [panel.webview.onDidReceiveMessage], together with the continuation that
      runs when a pending [refineStep] call settles;
    - [webview.js]: the listeners that post messages and the progress display.

    JavaScript strings are sequences of UTF-16 code units, so they are lists
    of [N] here.  Step objects are shared by reference between the [steps]
    array, the handler's local [stepToModify] and the pending continuation;
    they live in a store indexed by locations, and arrays hold locations. *)

From Stdlib Require Import ZArith NArith Ascii String DecimalString.
From Stdlib Require PrimFloat SpecFloat FloatOps Uint63.
From stdpp Require Import gmap list fin_maps.

Local Open Scope Z_scope.

(** ** JavaScript strings *)

Module JS.

Abbreviation code_unit := N.
Abbreviation js_string := (list N).

(** A literal of the source, written with ASCII characters only. *)
Definition lit (s : string) : js_string := map N_of_ascii (list_ascii_of_string s).

(** [WhiteSpace] and [LineTerminator] of ECMAScript: what [\s] matches and
    what [String.prototype.trim] strips. *)
Definition is_space (c : code_unit) : bool :=
  ((9 <=? c) && (c <=? 13) || (c =? 32) || (c =? 160) || (c =? 5760)
   || (8192 <=? c) && (c <=? 8202) || (c =? 8232) || (c =? 8233)
   || (c =? 8239) || (c =? 8287) || (c =? 12288) || (c =? 65279))%N.

(** [LineTerminator]: what [.] refuses without the [s] flag, and where
    [^] and [$] match with the [m] flag. *)
Definition is_line_terminator (c : code_unit) : bool :=
  ((c =? 10) || (c =? 13) || (c =? 8232) || (c =? 8233))%N.

(** [\d] *)
Definition is_digit (c : code_unit) : bool := ((48 <=? c) && (c <=? 57))%N.

(** A literal letter of a pattern under the [i] flag (no [u] flag): the
    code unit itself or its other case. [up] is the upper-case code. *)
Definition is_letter_ci (up : N) (c : code_unit) : bool :=
  ((c =? up) || (c =? up + 32))%N.

Fixpoint drop_while (p : code_unit -> bool) (s : js_string) : js_string :=
  match s with
  | [] => []
  | c :: r => if p c then drop_while p r else s
  end.

Fixpoint take_while (p : code_unit -> bool) (s : js_string) : js_string :=
  match s with
  | [] => []
  | c :: r => if p c then c :: take_while p r else []
  end.

Definition trimStart (s : js_string) : js_string := drop_while is_space s.

(** What is left of [s] without the white space at its end. *)
Fixpoint trimEnd (s : js_string) : js_string :=
  match s with
  | [] => []
  | c :: r =>
      match trimEnd r with
      | [] => if is_space c then [] else [c]
      | (_ :: _) as kept => c :: kept
      end
  end.

(** [String.prototype.trim] *)
Definition trim (s : js_string) : js_string := trimEnd (trimStart s).

(** [s.startsWith(p)], returning what follows the prefix. *)
Fixpoint strip_prefix (p s : js_string) : option js_string :=
  match p, s with
  | [], _ => Some s
  | a :: p', b :: s' => if (a =? b)%N then strip_prefix p' s' else None
  | _ :: _, [] => None
  end.

End JS.

Import JS.

(** ** planService.ts: [parsePlanIntoSteps] *)

(** The pattern [Step\s+\d+:] under the [i] flag, matched at the start of
    [s]; the result is what follows the match.  The greedy quantifiers never
    need to give anything back: a white-space character is not a digit and a
    digit is not a colon. *)
Definition match_label (s : js_string) : option js_string :=
  match s with
  | c1 :: c2 :: c3 :: c4 :: r =>
      if is_letter_ci 83 c1 && is_letter_ci 84 c2
         && is_letter_ci 69 c3 && is_letter_ci 80 c4
      then
        match take_while is_space r with
        | [] => None
        | _ :: _ =>
            let r1 := drop_while is_space r in
            match take_while is_digit r1 with
            | [] => None
            | _ :: _ =>
                match drop_while is_digit r1 with
                | c :: r2 => if (c =? 58)%N then Some r2 else None
                | [] => None
                end
            end
        end
      else None
  | _ => None
  end.

(** [plan.split(/(?=Step\s+\d+:)/i)].  The separator is an empty match, so
    [split] cuts before every position [q >= 1] at which the look-ahead
    succeeds; position [0] is never a cut (an empty match at the start of
    the current piece only advances [q]).  [split_pieces s] is the piece
    that starts [s] and the pieces after it. *)
Fixpoint split_pieces (s : js_string) : js_string * list js_string :=
  match s with
  | [] => ([], [])
  | c :: r =>
      let '(piece, others) := split_pieces r in
      match r with
      | [] => ([c], others)
      | _ :: _ =>
          match match_label r with
          | Some _ => ([c], piece :: others)
          | None => (c :: piece, others)
          end
      end
  end.

Definition split_on_labels (plan : js_string) : list js_string :=
  let '(piece, others) := split_pieces plan in piece :: others.

(** [trimmedSection.match(...)] with the pattern of [match_label] anchored
    by [^] and followed by greedy white space and a capture group that, under
    the [s] flag, takes the rest: the result is that first capture group. *)
Definition stepMatch (trimmedSection : js_string) : option js_string :=
  match match_label trimmedSection with
  | Some r => Some (drop_while is_space r)
  | None => None
  end.

(** The body of the [for] loop: what one section contributes. *)
Definition parse_section (section : js_string) : list js_string :=
  let trimmedSection := trim section in
  match trimmedSection with
  | [] => []
  | _ :: _ =>
      match stepMatch trimmedSection with
      | Some ((_ :: _) as g1) =>
          let stepContent := trim g1 in
          if (20 <? length stepContent)%nat then [stepContent] else []
      | _ => []
      end
  end.

Definition parsePlanIntoSteps (plan : js_string) : list js_string :=
  concat (map parse_section (split_on_labels plan)).

(** Whether [c] can start a label. *)
Definition starts_label (c : code_unit) : bool := is_letter_ci 83 c.

(** The texts that the label pattern matches in full. *)
Definition label_text (lab : js_string) : Prop :=
  ∃ c1 c2 c3 c4 ws ds,
    lab = c1 :: c2 :: c3 :: c4 :: ws ++ ds ++ [58%N]
    ∧ is_letter_ci 83 c1 = true ∧ is_letter_ci 84 c2 = true
    ∧ is_letter_ci 69 c3 = true ∧ is_letter_ci 80 c4 = true
    ∧ ws ≠ [] ∧ Forall (λ c, is_space c = true) ws
    ∧ ds ≠ [] ∧ Forall (λ c, is_digit c = true) ds.

(** A text that is exactly one label. *)
Definition is_label (lab : js_string) : Prop := match_label lab = Some [].

(** No label starts anywhere in [s]. *)
Fixpoint no_label (s : js_string) : bool :=
  match match_label s with
  | Some _ => false
  | None =>
      match s with
      | [] => true
      | _ :: r => no_label r
      end
  end.

Definition label_free (s : js_string) : Prop := no_label s = true.

(** A label and a body in which no label starts. *)
Definition section_ok (p : js_string * js_string) : Prop :=
  is_label p.1 ∧ label_free p.2.

(** A text cut into its labelled sections: each label with the body that
    follows it. *)
Definition sections_text (sections : list (js_string * js_string)) : js_string :=
  concat (map (λ p, p.1 ++ p.2) sections).

(** ** planService.ts: [cleanMarkdown] *)

Section Replace.
(** [text.replace(/OPEN(.*?)CLOSE/g, BEFORE + '$1' + AFTER)] for literal
    delimiters [OPEN] and [CLOSE]: the three inline replacements of
    [cleanMarkdown] have this shape. *)
Variables (opening closing before after : js_string).

(** The lazy group: the shortest run of characters other than line
    terminators that is followed by the closing delimiter. *)
Fixpoint lazy_until (s : js_string) : option js_string :=
  match strip_prefix closing s with
  | Some _ => Some []
  | None =>
      match s with
      | [] => None
      | c :: r =>
          if is_line_terminator c then None
          else option_map (cons c) (lazy_until r)
      end
  end.

(** One left-to-right pass.  [skip] counts the code units that the match
    found last still covers: the search resumes after it. *)
Fixpoint replace_delimited_from (skip : nat) (s : js_string) : js_string :=
  match s with
  | [] => []
  | c :: r =>
      match skip with
      | S n => replace_delimited_from n r
      | O =>
          match strip_prefix opening s with
          | Some body =>
              match lazy_until body with
              | Some inner =>
                  before ++ inner ++ after
                  ++ replace_delimited_from
                       (length opening + length inner + length closing - 1) r
              | None => c :: replace_delimited_from 0 r
              end
          | None => c :: replace_delimited_from 0 r
          end
      end
  end.

Definition replace_delimited (s : js_string) : js_string :=
  replace_delimited_from 0 s.
End Replace.

(** The pattern that starts a line with a dash and a space and takes the
    rest of the line ([g], [i] and [m] flags), replaced by a bullet
    (U+2022), a space and that rest.  [line_start] says whether [^] matches
    here: at the start of the text or after a line terminator. *)
Fixpoint replace_bullets_from (line_start : bool) (s : js_string) : js_string :=
  match s with
  | [] => []
  | c :: r =>
      match r with
      | c' :: r' =>
          if line_start && (c =? 45)%N && (c' =? 32)%N
          then 8226%N :: 32%N :: replace_bullets_from false r'
          else c :: replace_bullets_from (is_line_terminator c) r
      | [] => [c]
      end
  end.

(** [#{1,6}\s] matched at the start of [s]: the length of the match.  Up to
    six hashes are taken greedily and a white-space character must follow;
    giving a hash back cannot help, since a hash is not white space. *)
Definition match_heading (s : js_string) : option nat :=
  let hashes := Nat.min (length (take_while (N.eqb 35) s)) 6 in
  match hashes with
  | O => None
  | S _ =>
      match drop hashes s with
      | c :: _ => if is_space c then Some (S hashes) else None
      | [] => None
      end
  end.

(** [text.replace(/#{1,6}\s/g, '')] *)
Fixpoint strip_headings_from (skip : nat) (s : js_string) : js_string :=
  match s with
  | [] => []
  | c :: r =>
      match skip with
      | S n => strip_headings_from n r
      | O =>
          match match_heading s with
          | Some len => strip_headings_from (len - 1) r
          | None => c :: strip_headings_from 0 r
          end
      end
  end.

(** [text.replace(/\n/g, '<br>')] *)
Definition replace_newlines (s : js_string) : js_string :=
  flat_map (λ c, if (c =? 10)%N then lit "<br>" else [c]) s.

Definition cleanMarkdown (text : js_string) : js_string :=
  replace_newlines
    (strip_headings_from 0
      (replace_bullets_from true
        (replace_delimited (lit "`") (lit "`") (lit "<code>") (lit "</code>")
          (replace_delimited (lit "*") (lit "*") (lit "<em>") (lit "</em>")
            (replace_delimited (lit "**") (lit "**")
               (lit "<strong>") (lit "</strong>") text))))).

(** ** planService.ts: [refineStep] *)

(** What a [catch] clause receives: an [Error] instance with its [message],
    or any other thrown value with its [String(...)] conversion. *)
Inductive js_error :=
  | ErrorObject (message : js_string)
  | OtherThrown (asString : js_string).

(** How a call (or an awaited promise) ends. *)
Inductive completion (A : Type) :=
  | Normal (a : A)
  | Throw (e : js_error).
Arguments Normal {A} a.
Arguments Throw {A} e.

#[export] Instance completion_ret : MRet completion := λ A a, Normal a.
#[export] Instance completion_bind : MBind completion := λ A B k m,
  match m with
  | Normal a => k a
  | Throw e => Throw e
  end.

(** The part of the chat-completion response that the code reads. *)
Record ChatMessage := { msg_content : option js_string }.
Record Choice := { choice_message : option ChatMessage }.
Record ChatCompletion := { choices : list Choice }.

(** The request; the sampling temperature is left out. *)
Record ChatRequest := {
  req_model : js_string;
  req_system : js_string;
  req_user : js_string;
  req_max_tokens : Z
}.

(** [openai.chat.completions.create], awaited. *)
Definition OpenAI := ChatRequest -> completion ChatCompletion.

Definition quote : js_string := [34%N].
Definition newline : js_string := [10%N].

(** [String(n)] for a natural number. *)
Definition decimal (n : nat) : js_string := lit (NilZero.string_of_uint (Nat.to_uint n)).

(** [parts.join(sep)] *)
Fixpoint join (sep : js_string) (parts : list js_string) : js_string :=
  match parts with
  | [] => []
  | [p] => p
  | p :: rest => p ++ sep ++ join sep rest
  end.

Definition otherSteps (allSteps : list js_string) (stepIndex : Z) : js_string :=
  join newline
    (map snd
      (filter (λ p, Z.of_nat (fst p) ≠ stepIndex)
        (imap (λ idx step, (idx, lit "Step " ++ decimal (idx + 1) ++ lit ": " ++ step))
           allSteps))).

Definition system_prompt : js_string :=
  lit "You are an expert software architect helping to improve implementation plans. A user rejected a step, meaning they want a DIFFERENT approach, not more detail.

GUIDELINES:
- Suggest a completely different approach or method for achieving the same goal
- Consider alternative technologies, patterns, or architectures
- Think of creative solutions the user might not have considered
- Keep it practical and implementable
- Format as plain text without markdown formatting (no ** or ## or bullets)
- Make it concise but complete (2-4 sentences)
- Focus on WHAT and HOW, be specific about files/commands when helpful".

Definition user_prompt (originalStep taskContext others projectContext : js_string)
  : js_string :=
  lit "The user rejected this step from their implementation plan:

REJECTED STEP: " ++ quote ++ originalStep ++ quote ++ lit "

CONTEXT - This was part of a plan for: " ++ quote ++ taskContext ++ quote ++ lit "

OTHER STEPS IN THE PLAN:
" ++ others ++ lit "

PROJECT CONTEXT: " ++ quote ++ projectContext ++ quote ++ lit "

The user wants a different approach for this step. Suggest an alternative way to accomplish the same goal. Avoid markdown formatting - use plain text only.".

Definition refine_fallback : js_string := lit "Failed to refine step.".
Definition refine_error_prefix : js_string := lit "Error generating alternative: ".

(** Reading [.message] of [response.choices[0]] when there is no such
    element throws a [TypeError]. *)
Definition no_first_choice : js_error :=
  ErrorObject (lit "Cannot read properties of undefined (reading 'message')").

(** [response.choices[0].message?.content?.trim() || fallback] *)
Definition first_content_or_fallback (response : ChatCompletion)
  : completion js_string :=
  match choices response with
  | [] => Throw no_first_choice
  | c :: _ =>
      match choice_message c with
      | Some {| msg_content := Some text |} =>
          match trim text with
          | [] => Normal refine_fallback
          | (_ :: _) as trimmed => Normal trimmed
          end
      | _ => Normal refine_fallback
      end
  end.

(** The argument of [openai.chat.completions.create]. *)
Definition refine_request (originalStep : js_string) (allSteps : list js_string)
    (stepIndex : Z) (taskContext projectContext : js_string) : ChatRequest :=
  let others := otherSteps allSteps stepIndex in
  {| req_model := lit "gpt-4o";
     req_system := system_prompt;
     req_user := user_prompt originalStep taskContext others projectContext;
     req_max_tokens := 300 |}.

(** The body of the [try] block. *)
Definition refineStep_try (openai : OpenAI)
    (originalStep : js_string) (allSteps : list js_string) (stepIndex : Z)
    (taskContext projectContext : js_string) : completion js_string :=
  response ← openai (refine_request originalStep allSteps stepIndex taskContext
                       projectContext);
  refinedStep ← first_content_or_fallback response;
  mret (cleanMarkdown refinedStep).

(** [error instanceof Error ? error.message : String(error)] *)
Definition describe_error (error : js_error) : js_string :=
  match error with
  | ErrorObject message => message
  | OtherThrown text => text
  end.

(** The whole function: how the promise it returns settles. *)
Definition refineStep (openai : OpenAI)
    (originalStep : js_string) (allSteps : list js_string) (stepIndex : Z)
    (taskContext projectContext : js_string) : completion js_string :=
  match refineStep_try openai originalStep allSteps stepIndex taskContext
          projectContext with
  | Normal text => Normal text
  | Throw error => Normal (refine_error_prefix ++ describe_error error)
  end.

(** ** interfaces.ts: the data model *)

Inductive Status := accepted | rejected | edited | refining.

#[export] Instance Status_eq_dec : EqDecision Status.
Proof. solve_decision. Defined.

(** [status?:] an absent status is [None]. *)
Record PlanStep := {
  id : js_string;
  content : js_string;
  status : option Status;
  originalIndex : Z
}.

#[export] Instance PlanStep_eq_dec : EqDecision PlanStep.
Proof. solve_decision. Defined.

Definition set_content (c : js_string) (s : PlanStep) : PlanStep :=
  {| id := id s; content := c; status := status s; originalIndex := originalIndex s |}.
Definition set_status (st : option Status) (s : PlanStep) : PlanStep :=
  {| id := id s; content := content s; status := st; originalIndex := originalIndex s |}.
Definition set_originalIndex (i : Z) (s : PlanStep) : PlanStep :=
  {| id := id s; content := content s; status := status s; originalIndex := i |}.

(** Step objects are JavaScript objects: an array of steps is an array of
    references into the store of objects. *)
Definition loc := nat.

(** [lastModified] is a [Date]: milliseconds since the epoch. *)
Record PlanState := {
  steps : list loc;
  taskDescription : js_string;
  lastModified : Z
}.

(** ** extension.ts: the controller *)

Inductive PlanMessage :=
  | acceptStep (id : js_string)
  | rejectStep (id : js_string)
  | editStep (id : js_string) (content : js_string)
  | reorderSteps (newOrder : list js_string)
  | deleteStep (id : js_string)
  | addStep (afterId : option js_string) (content : js_string)
  | savePlan
  | sendToCopilotChat (content : js_string).

(** The arguments of a [refineStep] call that has been started and has not
    settled, and the step object its continuation will write to. *)
Record PendingRefine := {
  target : loc;
  arg_originalStep : js_string;
  arg_allSteps : list js_string;
  arg_stepIndex : Z;
  arg_taskContext : js_string;
  arg_projectContext : js_string
}.

(** What the closure of the handler holds: the store of step objects, the
    [planState] variable, the [projectContext] constant and the refinements
    in flight. *)
Record Controller := {
  objects : gmap loc PlanStep;
  planState : PlanState;
  projectContext : js_string;
  inflight : list PendingRefine
}.

(** [postMessage] serialises its argument: the webview receives the value of
    the state at the time of the call. *)
Record Snapshot := {
  snap_steps : list PlanStep;
  snap_taskDescription : js_string;
  snap_lastModified : Z
}.

Inductive Effect :=
  | post_updateStepStatus (id : js_string) (status : Status)
  | post_stateUpdated (state : Snapshot)
  | openTextDocument (state : Snapshot)
  | clipboard_writeText (content : js_string).

(** What one run of the handler takes from its environment: the value of
    [new Date()] and the value of [crypto.randomUUID()]. *)
Record Env := { now : Z; uuid : js_string }.

Definition snapshot (c : Controller) : Snapshot :=
  {| snap_steps := omap (λ l, objects c !! l) (steps (planState c));
     snap_taskDescription := taskDescription (planState c);
     snap_lastModified := lastModified (planState c) |}.

(** [s.id === i] for the object at [l]. *)
Definition has_id (objs : gmap loc PlanStep) (i : js_string) (l : loc) : Prop :=
  id <$> objs !! l = Some i.

#[export] Instance has_id_dec objs i l : Decision (has_id objs i l).
Proof. unfold has_id. apply _. Defined.

(** [steps.find(s => s.id === i)] *)
Definition find_step (objs : gmap loc PlanStep) (ss : list loc) (i : js_string)
  : option loc :=
  snd <$> list_find (has_id objs i) ss.

(** [steps.findIndex(s => s.id === i)], [None] for [-1]. *)
Definition findIndex (objs : gmap loc PlanStep) (ss : list loc) (i : js_string)
  : option nat :=
  fst <$> list_find (has_id objs i) ss.

(** [steps.indexOf(step)], comparing references. *)
Definition indexOf (ss : list loc) (l : loc) : Z :=
  match list_find (λ l', l' = l) ss with
  | Some (k, _) => Z.of_nat k
  | None => -1
  end.

(** [steps.forEach((step, index) => { step.originalIndex = index + 1; })] *)
Fixpoint updateStepIndices_from (index : nat) (ss : list loc)
    (objs : gmap loc PlanStep) : gmap loc PlanStep :=
  match ss with
  | [] => objs
  | l :: rest =>
      updateStepIndices_from (S index) rest
        (alter (set_originalIndex (Z.of_nat index + 1)) l objs)
  end.

Definition updateStepIndices (ss : list loc) (objs : gmap loc PlanStep)
  : gmap loc PlanStep :=
  updateStepIndices_from 0 ss objs.

Definition with_objects (objs : gmap loc PlanStep) (c : Controller) : Controller :=
  {| objects := objs; planState := planState c;
     projectContext := projectContext c; inflight := inflight c |}.
Definition with_steps (ss : list loc) (c : Controller) : Controller :=
  {| objects := objects c;
     planState := {| steps := ss;
                     taskDescription := taskDescription (planState c);
                     lastModified := lastModified (planState c) |};
     projectContext := projectContext c; inflight := inflight c |}.
Definition with_lastModified (t : Z) (c : Controller) : Controller :=
  {| objects := objects c;
     planState := {| steps := steps (planState c);
                     taskDescription := taskDescription (planState c);
                     lastModified := t |};
     projectContext := projectContext c; inflight := inflight c |}.
Definition with_inflight (p : list PendingRefine) (c : Controller) : Controller :=
  {| objects := objects c; planState := planState c;
     projectContext := projectContext c; inflight := p |}.

(** The [switch]: the controller after the case, the [updated] flag and the
    effects of the case.  In the [rejectStep] case the callback given to
    [withProgress] starts at once: it reads the arguments of [refineStep]
    from the state as it is then and starts the call; the rest of the
    callback is [refine_continuation] below. *)
Definition dispatch (env : Env) (message : PlanMessage) (c : Controller)
  : Controller * bool * list Effect :=
  let objs := objects c in
  let ss := steps (planState c) in
  match message with
  | acceptStep i =>
      match find_step objs ss i with
      | Some stepToModify =>
          (with_objects (alter (set_status (Some accepted)) stepToModify objs) c,
           true, [])
      | None => (c, false, [])
      end
  | rejectStep i =>
      match find_step objs ss i with
      | Some stepToModify =>
          let objs' := alter (set_status (Some rejected)) stepToModify objs in
          let call :=
            {| target := stepToModify;
               arg_originalStep := from_option content [] (objs' !! stepToModify);
               arg_allSteps := omap (λ l, content <$> objs' !! l) ss;
               arg_stepIndex := indexOf ss stepToModify;
               arg_taskContext := taskDescription (planState c);
               arg_projectContext := projectContext c |} in
          (with_inflight (inflight c ++ [call]) (with_objects objs' c),
           true, [post_updateStepStatus i refining])
      | None => (c, false, [])
      end
  | editStep i newContent =>
      match find_step objs ss i with
      | Some stepToModify =>
          if decide (content <$> objs !! stepToModify = Some newContent)
          then (c, false, [])
          else
            (with_objects
               (alter (λ s, set_status (Some edited) (set_content newContent s))
                  stepToModify objs) c,
             true, [])
      | None => (c, false, [])
      end
  | reorderSteps newOrder =>
      let newSteps := omap (find_step objs ss) newOrder in
      (with_objects (updateStepIndices newSteps objs) (with_steps newSteps c),
       true, [])
  | deleteStep i =>
      let kept := filter (λ l, ¬ has_id objs i l) ss in
      (with_objects (updateStepIndices kept objs) (with_steps kept c), true, [])
  | addStep afterId newContent =>
      let newStep := fresh (dom objs) in
      let objs' :=
        <[newStep := {| id := uuid env; content := newContent;
                        status := Some edited; originalIndex := -1 |}]> objs in
      let push := ss ++ [newStep] in
      let ss' :=
        match afterId with
        | Some ((_ :: _) as a) =>
            match findIndex objs ss a with
            | Some afterIndex =>
                take (afterIndex + 1) ss ++ newStep :: drop (afterIndex + 1) ss
            | None => push
            end
        | _ => push
        end in
      (with_objects (updateStepIndices ss' objs') (with_steps ss' c), true, [])
  | savePlan => (c, false, [openTextDocument (snapshot c)])
  | sendToCopilotChat text => (c, false, [clipboard_writeText text])
  end.

(** The handler passed to [panel.webview.onDidReceiveMessage]. *)
Definition onDidReceiveMessage (env : Env) (message : PlanMessage)
    (c : Controller) : Controller * list Effect :=
  let '(c', updated, effects) := dispatch env message c in
  if updated : bool then
    let c'' := with_lastModified (now env) c' in
    (c'', effects ++ [post_stateUpdated (snapshot c'')])
  else (c', effects).

(** The rest of the callback given to [withProgress] in the [rejectStep]
    case: what runs once the awaited [refineStep] promise has settled.
    [openai] is how the API answers this call. *)
Definition refine_continuation (openai : OpenAI) (t : Z) (call : PendingRefine)
    (c : Controller) : Controller * list Effect :=
  match refineStep openai (arg_originalStep call) (arg_allSteps call)
          (arg_stepIndex call) (arg_taskContext call) (arg_projectContext call) with
  | Normal refinedContent =>
      let objs' :=
        alter (λ s, set_status (Some edited) (set_content refinedContent s))
          (target call) (objects c) in
      let c' := with_lastModified t (with_objects objs' c) in
      (c', [post_stateUpdated (snapshot c')])
  | Throw _ => (c, [])
  end.

(** The controller runs one task at a time: a message from the webview, or
    the continuation of the [k]-th refinement in flight. *)
Inductive Event :=
  | Receive (env : Env) (message : PlanMessage)
  | RefineSettles (k : nat) (openai : OpenAI) (t : Z).

Definition step (e : Event) (c : Controller) : Controller * list Effect :=
  match e with
  | Receive env message => onDidReceiveMessage env message c
  | RefineSettles k openai t =>
      match inflight c !! k with
      | Some call =>
          refine_continuation openai t call (with_inflight (delete k (inflight c)) c)
      | None => (c, [])
      end
  end.

(** The controllers after each event of a sequence, in order. *)
Fixpoint trace (events : list Event) (c : Controller) : list Controller :=
  match events with
  | [] => []
  | e :: rest => let c' := fst (step e c) in c' :: trace rest c'
  end.

(** Plan creation: [rawSteps.map((content, index) => ({ id: generateStepId(),
    content, originalIndex: index + 1, status: undefined }))].  Each raw step
    comes with the identifier drawn for it. *)
Fixpoint create_steps (index : nat) (raw : list (js_string * js_string))
  : gmap loc PlanStep :=
  match raw with
  | [] => ∅
  | (u, text) :: rest =>
      <[index := {| id := u; content := text; status := None;
                    originalIndex := Z.of_nat index + 1 |}]>
        (create_steps (S index) rest)
  end.

Definition createPlan (task context : js_string) (t : Z)
    (raw : list (js_string * js_string)) : Controller :=
  {| objects := create_steps 0 raw;
     planState := {| steps := seq 0 (length raw);
                     taskDescription := task; lastModified := t |};
     projectContext := context;
     inflight := [] |}.

(** ** Reading the state *)

Definition step_at (c : Controller) (k : nat) : option PlanStep :=
  steps (planState c) !! k ≫= λ l, objects c !! l.

(** The identifiers of the plan, in order. *)
Definition step_ids (c : Controller) : list js_string :=
  id <$> snap_steps (snapshot c).

(** Every position of the plan holds a live object. *)
Definition steps_live (c : Controller) : Prop :=
  ∀ l, l ∈ steps (planState c) → is_Some (objects c !! l).

(** The display index of the step at position [k] is [k + 1]. *)
Definition indices_fresh (c : Controller) : Prop :=
  ∀ k l, steps (planState c) !! k = Some l →
    originalIndex <$> objects c !! l = Some (Z.of_nat k + 1).

(** The plan lists distinct live objects: no object sits at two positions. *)
Definition well_formed (c : Controller) : Prop :=
  NoDup (steps (planState c)) ∧ steps_live c.

(** The intents that change the structure of the plan. *)
Definition structural (e : Event) : Prop :=
  match e with
  | Receive _ (addStep _ _) | Receive _ (deleteStep _)
  | Receive _ (reorderSteps _) => True
  | _ => False
  end.

(** The tasks that work on one step in place: accept, reject, edit and the
    continuation of a refinement. *)
Definition in_place (e : Event) : Prop :=
  match e with
  | Receive _ (acceptStep _) | Receive _ (rejectStep _)
  | Receive _ (editStep _ _) | RefineSettles _ _ _ => True
  | _ => False
  end.

(** A reorder intent names no identifier twice. *)
Definition reorder_distinct (e : Event) : Prop :=
  match e with
  | Receive _ (reorderSteps newOrder) => NoDup newOrder
  | _ => True
  end.

Definition demo : Controller :=
  createPlan (lit "Add JWT auth") (lit "Project: demo") 1000
    [(lit "a", lit "Install the dependencies.");
     (lit "b", lit "Create the user model.");
     (lit "c", lit "Wire the login route.")].

(** ** extension.ts: validation and plan creation *)

(** [steps.some(step => step.id === id)] *)
Definition validateStepOperation (objs : gmap loc PlanStep) (i : js_string)
    (ss : list loc) : bool :=
  existsb (λ l, bool_decide (has_id objs i l)) ss.

(** How the callback of the [generatePlan] command ends once the API has
    answered: with a plan to show, or with an error message shown. *)
Inductive Generation :=
  | PlanShown (c : Controller)
  | ErrorShown (message : js_string).

Definition cannot_parse : js_string :=
  lit "Could not parse any actionable steps from the generated plan. Please try a more specific task description.".
Definition failed_to_generate : js_string :=
  lit "Failed to generate plan. Please try again.".
Definition generation_error_prefix : js_string := lit "Error generating plan: ".

(** [error.message] in the [catch] clause, for an [Error] instance.  Of
    another thrown value the property is whatever that value has, which
    [OtherThrown] does not record. *)
Definition error_message (error : js_error) : option js_string :=
  match error with
  | ErrorObject message => Some message
  | OtherThrown _ => None
  end.

(** [response.choices[0].message?.content] *)
Definition first_content (response : ChatCompletion) : completion (option js_string) :=
  match choices response with
  | [] => Throw no_first_choice
  | c :: _ =>
      match choice_message c with
      | Some m => Normal (msg_content m)
      | None => Normal None
      end
  end.

(** The callback from the answer of the API to the plan state.  [uuid_at k]
    is what the [k]-th call of [generateStepId] returns.  [None] is for a
    thrown value that is not an [Error]. *)
Definition planFromResponse (task context : js_string) (t : Z)
    (uuid_at : nat → js_string) (answer : completion ChatCompletion)
  : option Generation :=
  match answer ≫= first_content with
  | Throw error =>
      (λ message, ErrorShown (generation_error_prefix ++ message))
        <$> error_message error
  | Normal (Some ((_ :: _) as plan)) =>
      match parsePlanIntoSteps plan with
      | [] => Some (ErrorShown cannot_parse)
      | (_ :: _) as rawSteps =>
          Some (PlanShown
                  (createPlan task context t
                     (imap (λ index text, (uuid_at index, text)) rawSteps)))
      end
  | Normal _ => Some (ErrorShown failed_to_generate)
  end.

(** ** webview.js: the presentation side *)

(** The webview works on [planState], the state it received last; its steps
    are values, not the controller's objects. *)

(** [steps.findIndex(s => s.id === i)] on the mirror. *)
Definition mirror_findIndex (ms : list PlanStep) (i : js_string) : option nat :=
  fst <$> list_find (λ s, id s = i) ms.

(** [[a[j], a[k]] = [a[k], a[j]]] for two positions of the array: first
    [a[j]] gets the old [a[k]], then [a[k]] the old [a[j]]. *)
Definition swap {A} (j k : nat) (xs : list A) : list A :=
  match xs !! j, xs !! k with
  | Some x, Some y => <[k := x]> (<[j := y]> xs)
  | _, _ => xs
  end.

(** [a.splice(at, 0, x)]: a start beyond the end is the end. *)
Definition splice_in {A} (at_ : nat) (x : A) (xs : list A) : list A :=
  take at_ xs ++ x :: drop at_ xs.




(** The [drop] listener of the card of [stepId].  [droppedId] is what the
    data transfer holds, [dragging] whether [draggedItem] is set and
    [upper_half] whether the pointer is in the upper half of the card. *)
Definition onDrop (ms : list PlanStep) (droppedId : option js_string)
    (dragging : bool) (stepId : js_string) (upper_half : bool)
  : option PlanMessage :=
  match droppedId with
  | Some ((_ :: _) as dropped) =>
      if dragging then
        match mirror_findIndex ms dropped, mirror_findIndex ms stepId with
        | Some droppedIndex, Some targetIndex =>
            if decide (droppedIndex = targetIndex) then None
            else
              match ms !! droppedIndex with
              | Some removed =>
                  let newOrder := delete droppedIndex ms in
                  let at_ := if upper_half then targetIndex
                             else (targetIndex + 1)%nat in
                  Some (reorderSteps (id <$> splice_in at_ removed newOrder))
              | None => None
              end
        | _, _ => None
        end
      else None
  | _ => None
  end.

(** The click listener of the Add Step button. *)
Definition addStepButton_click (ms : list PlanStep) : PlanMessage :=
  addStep (id <$> last ms) (lit "New plan step.").

(** [exitEditMode(stepId, true)]: [textContent] is the text of the card. *)
Definition exitEditMode_save (ms : list PlanStep) (stepId : js_string)
    (textContent : js_string) : option PlanMessage :=
  let originalContent := content <$> (snd <$> list_find (λ s, id s = stepId) ms) in
  if decide (originalContent = Some textContent) then None
  else Some (editStep stepId textContent).

(** The [message] listener of the webview: [stateUpdated] replaces the
    mirror, anything else leaves it. *)
Definition webview_receive (mirror : Snapshot) (e : Effect) : Snapshot :=
  match e with
  | post_stateUpdated state => state
  | _ => mirror
  end.

(** A session: the controller after the events and everything it sent. *)
Fixpoint run (events : list Event) (c : Controller) : Controller * list Effect :=
  match events with
  | [] => (c, [])
  | e :: rest =>
      let '(c', sent) := step e c in
      let '(c'', sent') := run rest c' in
      (c'', sent ++ sent')
  end.

(** ** Text without markup *)

(** A code unit that no pass of [cleanMarkdown] looks for. *)
Definition markup_free (c : code_unit) : bool :=
  negb ((c =? 42) || (c =? 96) || (c =? 35) || (c =? 45) || (c =? 10))%N.

Definition plain (s : js_string) : Prop := Forall (λ c, markup_free c = true) s.

Definition single_line (s : js_string) : Prop :=
  Forall (λ c, is_line_terminator c = false) s.

(** ** Where identifiers come from *)

(** Identifiers have one source, [generateStepId], that is
    [crypto.randomUUID()]: it is called once per raw step when the plan is
    created and once per [addStep] message, and nowhere else.  The source is
    [g : nat → js_string], where [g k] is what call number [k] made for this
    plan returns.  A session is the controller together with the number of
    calls made so far. *)
Record Session := { controller : Controller; drawn : nat }.

(** What the controller is given to run: a message (with what [new Date()]
    returns while it is handled), or the settling of a refinement. *)
Inductive Input :=
  | Message (t : Z) (message : PlanMessage)
  | Settles (k : nat) (openai : OpenAI) (t : Z).

(** The calls of [generateStepId] that handling a message makes. *)
Definition draws (i : Input) : nat :=
  match i with
  | Message _ (addStep _ _) => 1
  | _ => 0
  end.

(** The event that an input is, with the identifier that the next call of
    the source returns. *)
Definition event_of (g : nat → js_string) (s : Session) (i : Input) : Event :=
  match i with
  | Message t message => Receive {| now := t; uuid := g (drawn s) |} message
  | Settles k openai t => RefineSettles k openai t
  end.

Definition session_step (g : nat → js_string) (i : Input) (s : Session)
  : Session * list Effect :=
  let r := step (event_of g s i) (controller s) in
  ({| controller := r.1; drawn := (drawn s + draws i)%nat |}, r.2).

(** Plan creation: raw step number [k] gets what call number [k] returns. *)
Definition session_start (g : nat → js_string) (task context : js_string) (t : Z)
    (rawSteps : list js_string) : Session :=
  {| controller := createPlan task context t
                     (imap (λ index text, (g index, text)) rawSteps);
     drawn := length rawSteps |}.

(** The sessions that the program can be in: a created plan, and what any
    input makes of a session it can be in. *)
Inductive reachable (g : nat → js_string) : Session → Prop :=
  | reachable_start task context t rawSteps :
      reachable g (session_start g task context t rawSteps)
  | reachable_step i s :
      reachable g s → reachable g (session_step g i s).1.

(** What a UUID source is relied on for: no value is returned twice, and a
    value is not the empty string (it has 36 characters). *)
Definition distinct_draws (g : nat → js_string) : Prop := ∀ j k, g j = g k → j = k.
Definition nonempty_draws (g : nat → js_string) : Prop := ∀ k, g k ≠ [].

(** A source for the sample runs: it returns [a], [b], [c], ... *)
Definition demo_source (k : nat) : js_string := [(N.of_nat k + 97)%N].

(** The session that starts with [demo]. *)
Definition demo_session : Session :=
  session_start demo_source (lit "Add JWT auth") (lit "Project: demo") 1000
    [lit "Install the dependencies."; lit "Create the user model.";
     lit "Wire the login route."].

(** ** webview.js: the progress display *)






(** Reassociating appended lists. *)
Ltac list_assoc := simpl; repeat (rewrite <- app_assoc; simpl).

(** * Properties *)

(** ** Sample runs *)

Example parse_two :
  parsePlanIntoSteps
    (lit "Intro.
Step 1: Install the dependencies now.
STEP 2: Too short
step  30:   Wire the login route to JWT.  ")
  = [lit "Install the dependencies now."; lit "Wire the login route to JWT."].
Proof. vm_compute. reflexivity. Qed.

Example cleanMarkdown_sample :
  cleanMarkdown (lit "## Use **JWT** and `jose`
- *once*
####### x")
  = lit "Use <strong>JWT</strong> and <code>jose</code><br>"
    ++ [8226%N] ++ lit " <em>once</em><br>#x".
Proof. vm_compute. reflexivity. Qed.

Example otherSteps_sample :
  otherSteps [lit "a"; lit "b"; lit "c"] 1 = lit "Step 1: a
Step 3: c".
Proof. vm_compute. reflexivity. Qed.

Example demo_reorder :
  let c := fst (step (Receive {| now := 2000; uuid := lit "u" |}
                        (reorderSteps [lit "c"; lit "a"; lit "b"])) demo) in
  step_ids c = [lit "c"; lit "a"; lit "b"]
  ∧ originalIndex <$> snap_steps (snapshot c) = [1; 2; 3].
Proof. vm_compute. split; reflexivity. Qed.

Example demo_add :
  let c := fst (step (Receive {| now := 2000; uuid := lit "u" |}
                        (addStep (Some (lit "a")) (lit "New plan step."))) demo) in
  step_ids c = [lit "a"; lit "u"; lit "b"; lit "c"]
  ∧ originalIndex <$> snap_steps (snapshot c) = [1; 2; 3; 4]
  ∧ steps (planState c) = [0; 3; 1; 2]%nat.
Proof. vm_compute. repeat split; reflexivity. Qed.

(** ** The store under [updateStepIndices] *)

Section UpdateStepIndices.
Implicit Types (objs : gmap loc PlanStep) (ss : list loc) (l : loc).

Lemma update_indices_notin n ss objs l :
  l ∉ ss → updateStepIndices_from n ss objs !! l = objs !! l.
Proof.
  revert n objs. induction ss as [|a ss IH]; intros n objs Hl; [done|].
  apply not_elem_of_cons in Hl as [Hne Hl]. simpl.
  rewrite IH by done. by rewrite lookup_alter_ne.
Qed.

Lemma update_indices_is_Some n ss objs l :
  is_Some (updateStepIndices_from n ss objs !! l) ↔ is_Some (objs !! l).
Proof.
  revert n objs. induction ss as [|a ss IH]; intros n objs; [done|].
  simpl. rewrite IH. destruct (decide (a = l)) as [->|Hne].
  - rewrite lookup_alter_eq. by rewrite fmap_is_Some.
  - by rewrite lookup_alter_ne.
Qed.

(** Only [originalIndex] is written. *)
Lemma update_indices_id n ss objs l :
  id <$> updateStepIndices_from n ss objs !! l = id <$> objs !! l.
Proof.
  revert n objs. induction ss as [|a ss IH]; intros n objs; [done|].
  simpl. rewrite IH. destruct (decide (a = l)) as [->|Hne].
  - rewrite lookup_alter_eq. by destruct (objs !! l).
  - by rewrite lookup_alter_ne.
Qed.

Lemma update_indices_content n ss objs l :
  content <$> updateStepIndices_from n ss objs !! l = content <$> objs !! l.
Proof.
  revert n objs. induction ss as [|a ss IH]; intros n objs; [done|].
  simpl. rewrite IH. destruct (decide (a = l)) as [->|Hne].
  - rewrite lookup_alter_eq. by destruct (objs !! l).
  - by rewrite lookup_alter_ne.
Qed.

Lemma update_indices_status n ss objs l :
  status <$> updateStepIndices_from n ss objs !! l = status <$> objs !! l.
Proof.
  revert n objs. induction ss as [|a ss IH]; intros n objs; [done|].
  simpl. rewrite IH. destruct (decide (a = l)) as [->|Hne].
  - rewrite lookup_alter_eq. by destruct (objs !! l).
  - by rewrite lookup_alter_ne.
Qed.

(** Without aliasing, the object at position [k] ends with index
    [n + k + 1]. *)
Lemma update_indices_at n ss objs k l :
  NoDup ss → ss !! k = Some l →
  originalIndex <$> updateStepIndices_from n ss objs !! l
  = (λ _, Z.of_nat (n + k) + 1) <$> objs !! l.
Proof.
  revert n objs k. induction ss as [|a ss IH]; intros n objs k Hnd Hk; [done|].
  apply NoDup_cons in Hnd as [Ha Hnd]. destruct k as [|k]; simpl in *.
  - injection Hk as ->. rewrite update_indices_notin by done.
    rewrite lookup_alter_eq, Nat.add_0_r. by destruct (objs !! l).
  - rewrite (IH _ _ k) by done.
    assert (a ≠ l) by (intros ->; apply Ha; by eapply list_elem_of_lookup_2).
    rewrite lookup_alter_ne by done.
    replace (S n + k)%nat with (n + S k)%nat by lia. done.
Qed.

(** The indices are already those that the pass writes: nothing changes. *)
Lemma update_indices_fresh n ss objs :
  (∀ k l, ss !! k = Some l →
     originalIndex <$> objs !! l = Some (Z.of_nat (n + k) + 1)) →
  updateStepIndices_from n ss objs = objs.
Proof.
  revert n objs. induction ss as [|a ss IH]; intros n objs H; [done|].
  simpl. assert (alter (set_originalIndex (Z.of_nat n + 1)) a objs = objs) as ->.
  { specialize (H 0%nat a eq_refl). rewrite Nat.add_0_r in H.
    destruct (objs !! a) as [s|] eqn:E; [|done].
    apply map_eq. intros j. destruct (decide (a = j)) as [<-|Hne].
    - rewrite lookup_alter_eq, E. simpl. f_equal. destruct s. simpl in *.
      injection H as <-. done.
    - by rewrite lookup_alter_ne. }
  apply IH. intros k l Hk. rewrite (H (S k) l Hk). f_equal. lia.
Qed.
End UpdateStepIndices.

(** ** Looking steps up by identifier *)

Section Find.
Implicit Types (objs : gmap loc PlanStep) (ss : list loc) (l : loc) (i : js_string).

Lemma find_step_Some objs ss i l :
  find_step objs ss i = Some l → l ∈ ss ∧ has_id objs i l.
Proof.
  unfold find_step. destruct (list_find _ ss) as [[k l']|] eqn:E; [|done].
  simpl. intros [= ->]. apply list_find_Some in E as (Hk & Hid & _).
  split; [by eapply list_elem_of_lookup_2 | done].
Qed.

Lemma find_step_None objs ss i :
  find_step objs ss i = None ↔ ∀ l, l ∈ ss → ¬ has_id objs i l.
Proof.
  unfold find_step. destruct (list_find _ ss) as [[k l']|] eqn:E; simpl.
  - apply list_find_Some in E as (Hk & Hid & _). split; [done|].
    intros H. exfalso. eapply H; [by eapply list_elem_of_lookup_2 | done].
  - apply list_find_None in E. split; [|done]. intros _.
    by apply Forall_forall.
Qed.

Lemma find_step_findIndex objs ss i :
  find_step objs ss i = (findIndex objs ss i ≫= λ k, ss !! k).
Proof.
  unfold find_step, findIndex.
  destruct (list_find _ ss) as [[k l']|] eqn:E; [|done]. simpl.
  by apply list_find_Some in E as (-> & _).
Qed.

Lemma findIndex_Some objs ss i k :
  findIndex objs ss i = Some k →
  ∃ l, ss !! k = Some l ∧ has_id objs i l
       ∧ ∀ j l', ss !! j = Some l' → (j < k)%nat → ¬ has_id objs i l'.
Proof.
  unfold findIndex. destruct (list_find _ ss) as [[k' l]|] eqn:E; [|done].
  simpl. intros [= ->]. apply list_find_Some in E. eauto.
Qed.

Lemma findIndex_None objs ss i :
  findIndex objs ss i = None ↔ ∀ l, l ∈ ss → ¬ has_id objs i l.
Proof.
  rewrite <- find_step_None. unfold find_step, findIndex.
  by destruct (list_find _ ss) as [[??]|].
Qed.

(** With distinct identifiers in the request, the steps found are distinct
    objects. *)
Lemma reorder_NoDup objs ss (newOrder : list js_string) :
  NoDup newOrder → NoDup (omap (find_step objs ss) newOrder).
Proof.
  induction 1 as [|i rest Hi Hnd IH]; simpl; [constructor|].
  destruct (find_step objs ss i) as [l|] eqn:E; [|done].
  constructor; [|done]. intros Hin.
  apply list_elem_of_omap in Hin as (j & Hj & Hfind).
  apply find_step_Some in E as [_ E]. apply find_step_Some in Hfind as [_ Hfind].
  unfold has_id in *. assert (i = j) as -> by congruence. done.
Qed.

Lemma reorder_found objs ss (newOrder : list js_string) l :
  l ∈ omap (find_step objs ss) newOrder → l ∈ ss ∧ is_Some (objs !! l).
Proof.
  intros (i & _ & Hfind)%list_elem_of_omap.
  apply find_step_Some in Hfind as [Hin Hid]. split; [done|].
  unfold has_id in Hid. by destruct (objs !! l).
Qed.

Lemma insert_middle_perm {A} (x : A) (xs : list A) n :
  take n xs ++ x :: drop n xs ≡ₚ x :: xs.
Proof. by rewrite <- Permutation_middle, take_drop. Qed.
End Find.

(** ** The display indices after a pass *)

Lemma indices_after_update (ss : list loc) (objs : gmap loc PlanStep) k l :
  NoDup ss → (∀ l', l' ∈ ss → is_Some (objs !! l')) → ss !! k = Some l →
  originalIndex <$> updateStepIndices ss objs !! l = Some (Z.of_nat k + 1).
Proof.
  intros Hnd Hlive Hk. unfold updateStepIndices.
  rewrite (update_indices_at _ _ _ k) by done.
  destruct (Hlive l) as [s ->]; [by eapply list_elem_of_lookup_2 | done].
Qed.

(** The list of steps that an [addStep] builds. *)
Lemma addStep_steps env afterId text c :
  ∃ n, steps (planState (dispatch env (addStep afterId text) c).1.1)
       = take n (steps (planState c)) ++ fresh (dom (objects c))
           :: drop n (steps (planState c)).
Proof.
  simpl. destruct afterId as [[|a0 a]|]; simpl.
  - exists (length (steps (planState c))). by rewrite take_ge, drop_ge by lia.
  - destruct (findIndex _ _ _) as [k|]; simpl; [by exists (k + 1)%nat|].
    exists (length (steps (planState c))). by rewrite take_ge, drop_ge by lia.
  - exists (length (steps (planState c))). by rewrite take_ge, drop_ge by lia.
Qed.

Lemma fresh_not_listed (c : Controller) :
  steps_live c → fresh (dom (objects c)) ∉ steps (planState c).
Proof.
  intros Hlive Hin. apply Hlive, elem_of_dom in Hin. by apply is_fresh in Hin.
Qed.

(** ** Well-formed controllers *)

Lemma live_alter (f : PlanStep → PlanStep) (a : loc) (objs : gmap loc PlanStep) l :
  is_Some (alter f a objs !! l) ↔ is_Some (objs !! l).
Proof.
  destruct (decide (a = l)) as [->|Hne].
  - rewrite lookup_alter_eq. by rewrite fmap_is_Some.
  - by rewrite lookup_alter_ne.
Qed.

Lemma createPlan_objects (raw : list (js_string * js_string)) n k :
  create_steps n raw !! k
  = if decide (n ≤ k)%nat
    then (λ p, {| id := p.1; content := p.2; status := None;
                  originalIndex := Z.of_nat k + 1 |}) <$> raw !! (k - n)%nat
    else None.
Proof.
  revert n. induction raw as [|[u text] raw IH]; intros n; simpl.
  - rewrite lookup_empty. by case_decide.
  - destruct (decide (n = k)) as [->|Hne].
    + rewrite lookup_insert_eq, decide_True, Nat.sub_diag by lia. done.
    + rewrite lookup_insert_ne, IH by done. repeat case_decide; try lia; [|done].
      replace (k - n)%nat with (S (k - S n)) by lia. done.
Qed.

Lemma createPlan_well_formed task context t raw :
  well_formed (createPlan task context t raw).
Proof.
  split; simpl; [apply NoDup_seq|].
  intros l Hl%elem_of_seq. simpl. rewrite createPlan_objects, decide_True by lia.
  rewrite fmap_is_Some. apply lookup_lt_is_Some. lia.
Qed.

Lemma createPlan_indices_fresh task context t raw :
  indices_fresh (createPlan task context t raw).
Proof.
  intros k l Hk. simpl in *. apply lookup_seq in Hk as [-> Hk]. simpl.
  rewrite createPlan_objects, decide_True by lia.
  destruct (lookup_lt_is_Some_2 raw (k - 0)) as [p ->]; [lia|done].
Qed.

(** Every task of the controller keeps the plan well formed, as long as a
    reorder intent names no identifier twice. *)
Lemma step_well_formed e c :
  reorder_distinct e → well_formed c → well_formed (step e c).1.
Proof.
  intros He [Hnd Hlive]. destruct e as [env m|k openai t]; simpl.
  - unfold onDidReceiveMessage.
    destruct m as [i|i|i text|newOrder|i|afterId text| |text].
    + simpl. destruct (find_step _ _ i) as [found|]; simpl; [|done].
      split; [done|]. intros l Hl. simpl. apply live_alter. by apply Hlive.
    + simpl. destruct (find_step _ _ i) as [found|]; simpl; [|done].
      split; [done|]. intros l Hl. simpl. apply live_alter. by apply Hlive.
    + simpl. destruct (find_step _ _ i) as [found|]; simpl; [|done].
      case_decide; simpl; [done|].
      split; [done|]. intros l Hl. simpl. apply live_alter. by apply Hlive.
    + simpl in *. split; simpl; [by apply reorder_NoDup|].
      intros l Hl. simpl in *. apply update_indices_is_Some.
      by apply reorder_found in Hl as [_ ?].
    + simpl. split; simpl; [by apply NoDup_filter|].
      intros l Hl. simpl in *. apply update_indices_is_Some.
      apply list_elem_of_filter in Hl as [_ Hl]. by apply Hlive.
    + destruct (addStep_steps env afterId text c) as [n Hn].
      pose proof (fresh_not_listed c Hlive) as Hfresh.
      destruct (dispatch env (addStep afterId text) c) as [[c' u] eff] eqn:E.
      assert (u = true ∧ objects c' = updateStepIndices (steps (planState c'))
                (<[fresh (dom (objects c)) :=
                     {| id := uuid env; content := text; status := Some edited;
                        originalIndex := -1 |}]> (objects c))) as [-> Hobj].
      { simpl in E. by injection E as <- <- <-. }
      simpl in Hn. split; simpl.
      * rewrite Hn, insert_middle_perm. by constructor.
      * intros l Hl. simpl in *. rewrite Hobj. apply update_indices_is_Some.
        rewrite Hn, insert_middle_perm in Hl.
        apply elem_of_cons in Hl as [->|Hl].
        -- by rewrite lookup_insert_eq.
        -- rewrite lookup_insert_ne by (intros <-; done). by apply Hlive.
    + done.
    + done.
  - destruct (inflight c !! k) as [call|]; simpl; [|done].
    unfold refine_continuation. destruct (refineStep _ _ _ _ _ _); simpl; [|done].
    split; [done|]. intros l Hl. simpl. apply live_alter. by apply Hlive.
Qed.

(** ** The display-index invariant *)

Lemma indices_fresh_of_update (c : Controller) (objs : gmap loc PlanStep) :
  objects c = updateStepIndices (steps (planState c)) objs →
  well_formed c → indices_fresh c.
Proof.
  intros Hobj [Hnd Hlive] k l Hk. rewrite Hobj.
  apply indices_after_update; [done| |done].
  intros l' Hl'. apply Hlive in Hl'. rewrite Hobj in Hl'.
  by apply update_indices_is_Some in Hl'.
Qed.

Lemma structural_step_fresh e c :
  structural e → reorder_distinct e → well_formed c →
  indices_fresh (step e c).1.
Proof.
  intros Hs He Hwf. pose proof (step_well_formed e c He Hwf) as Hwf'.
  destruct e as [env m|]; [|done].
  destruct m as [| | |newOrder|i|afterId text| |]; try done.
  - by eapply indices_fresh_of_update.
  - by eapply indices_fresh_of_update.
  - eapply indices_fresh_of_update; [|done].
    simpl. by destruct afterId as [[|??]|].
Qed.

(** C1.  Start from any plan whose positions hold distinct step
    objects and apply any sequence of add, delete and reorder intents in
    which no reorder intent names an identifier twice: immediately after
    each intent, the step at 0-based position [k] has [originalIndex]
    equal to [k + 1], for every [k]. *)
Theorem display_index_invariant (c : Controller) (events : list Event) :
  well_formed c →
  Forall structural events →
  Forall reorder_distinct events →
  Forall indices_fresh (trace events c).
Proof.
  intros Hwf Hs. revert c Hwf.
  induction Hs as [|e events He Hs IH]; intros c Hwf Hd; simpl; [constructor|].
  apply Forall_cons in Hd as [Hd Hds]. constructor.
  - by apply structural_step_fresh.
  - apply IH; [|done]. by apply step_well_formed.
Qed.

(** A session on the three-step plan: add after [a], delete [b], reorder. *)
Lemma display_index_invariant_witness :
  Forall indices_fresh
    (trace [Receive {| now := 2000; uuid := lit "u" |}
              (addStep (Some (lit "a")) (lit "New plan step."));
            Receive {| now := 3000; uuid := lit "v" |} (deleteStep (lit "b"));
            Receive {| now := 4000; uuid := lit "w" |}
              (reorderSteps [lit "c"; lit "u"; lit "a"])]
       demo).
Proof.
  apply display_index_invariant.
  - apply createPlan_well_formed.
  - repeat constructor.
  - apply Forall_cons_2; [exact I|]. apply Forall_cons_2; [exact I|].
    apply Forall_cons_2; [|apply Forall_nil_2].
    apply (bool_decide_unpack _). vm_compute. reflexivity.
Defined.

(** Why a reorder intent must not name an identifier twice (the webview
    never sends such a list): naming the only step twice puts the same
    object at both positions, and the pass over the new list leaves it with
    index 2, also at position 0. *)
Lemma display_index_stale_after_repeated_id :
  let c0 := createPlan (lit "Add JWT auth") (lit "Project: demo") 1000
              [(lit "a", lit "Install the dependencies.")] in
  let events := [Receive {| now := 2000; uuid := lit "u" |}
                   (reorderSteps [lit "a"; lit "a"])] in
  well_formed c0 ∧ Forall structural events
  ∧ (originalIndex <$> step_at (step (Receive {| now := 2000; uuid := lit "u" |}
                                  (reorderSteps [lit "a"; lit "a"])) c0).1 0)
    = Some 2
  ∧ ¬ Forall indices_fresh (trace events c0).
Proof.
  repeat split.
  - apply NoDup_seq.
  - intros l Hl. apply createPlan_well_formed in Hl. exact Hl.
  - repeat constructor.
  - intros H. apply Forall_cons in H as [H _].
    specialize (H 0%nat 0%nat eq_refl). vm_compute in H. discriminate H.
Qed.

(** ** The identifiers of the plan *)

Lemma step_ids_omap (c : Controller) :
  step_ids c = omap (λ l, id <$> objects c !! l) (steps (planState c)).
Proof. unfold step_ids. simpl. apply list_fmap_omap. Qed.

Lemma elem_of_step_ids (c : Controller) (i : js_string) :
  i ∈ step_ids c ↔ ∃ l, l ∈ steps (planState c) ∧ has_id (objects c) i l.
Proof. rewrite step_ids_omap. apply list_elem_of_omap. Qed.

Lemma find_step_is_Some (c : Controller) (i : js_string) :
  is_Some (find_step (objects c) (steps (planState c)) i) ↔ i ∈ step_ids c.
Proof.
  rewrite elem_of_step_ids. split.
  - intros [l Hl]. apply find_step_Some in Hl. eauto.
  - intros (l & Hin & Hid).
    destruct (find_step _ _ i) eqn:E; [done|].
    exfalso. eapply find_step_None in E; eauto.
Qed.

(** With distinct identifiers in the plan, an identifier names one object. *)
Lemma unique_ids_same_object (f : loc → option js_string) (ss : list loc) l l' i :
  NoDup (omap f ss) → l ∈ ss → l' ∈ ss → f l = Some i → f l' = Some i → l = l'.
Proof.
  induction ss as [|a ss IH]; intros Hnd Hl Hl' Hf Hf'; [by apply elem_of_nil in Hl|].
  assert (Hrest : ∀ x, x ∈ ss → f x = Some i → f a = Some i → False).
  { intros x Hx Hfx Hfa. simpl in Hnd. rewrite Hfa in Hnd.
    apply NoDup_cons in Hnd as [Hni _]. apply Hni, list_elem_of_omap. eauto. }
  assert (Hnd' : NoDup (omap f ss)).
  { simpl in Hnd. destruct (f a); [by apply NoDup_cons in Hnd as [_ ?]|done]. }
  apply elem_of_cons in Hl as [->|Hl]; apply elem_of_cons in Hl' as [->|Hl'].
  - done.
  - exfalso. eauto.
  - exfalso. eauto.
  - by apply IH.
Qed.

Lemma unique_ids_find (c : Controller) (i : js_string) (l : loc) :
  NoDup (step_ids c) → l ∈ steps (planState c) → has_id (objects c) i l →
  find_step (objects c) (steps (planState c)) i = Some l.
Proof.
  intros Hnd Hl Hid. rewrite step_ids_omap in Hnd.
  destruct (find_step _ _ i) as [l'|] eqn:E.
  - apply find_step_Some in E as [Hl' Hid']. f_equal.
    by eapply unique_ids_same_object.
  - exfalso. eapply find_step_None in E; eauto.
Qed.

(** ** Reordering *)

Lemma reorder_ids (objs : gmap loc PlanStep) (ss : list loc) (g : loc → option js_string)
    (known : js_string → Prop) `{!∀ i, Decision (known i)} (newOrder : list js_string) :
  (∀ i, known i ↔ is_Some (find_step objs ss i)) →
  (∀ l, g l = id <$> objs !! l) →
  omap g (omap (find_step objs ss) newOrder) = filter known newOrder.
Proof.
  intros Hknown Hg. induction newOrder as [|i rest IH]; [done|].
  simpl. rewrite filter_cons. destruct (find_step objs ss i) as [l|] eqn:E.
  - rewrite decide_True by (apply Hknown; by rewrite E).
    apply find_step_Some in E as [_ E]. simpl. rewrite Hg, E. simpl.
    f_equal. exact IH.
  - rewrite decide_False; [exact IH|]. intros [x Hx]%Hknown. by rewrite E in Hx.
Qed.

(** C4.  In a plan with distinct identifiers, [reorderSteps newOrder] makes
    the plan the existing steps named by [newOrder], in the order of
    [newOrder]: the identifiers of the new plan are [newOrder] without the
    identifiers that name no step; an object is in the new plan exactly when
    it was in the plan and [newOrder] names it, so steps that [newOrder] does
    not name are dropped; no step changes identifier, content or status; and
    when [newOrder] names no identifier twice (a permutation, as for three
    steps a, b, c reordered to c, a, b) the display indices are 1, 2, 3, ... *)
Theorem reorder_projects_plan (c : Controller) (env : Env) (newOrder : list js_string) :
  NoDup (step_ids c) →
  let c' := (onDidReceiveMessage env (reorderSteps newOrder) c).1 in
  step_ids c' = filter (λ i, i ∈ step_ids c) newOrder
  ∧ (∀ l, l ∈ steps (planState c')
          ↔ l ∈ steps (planState c)
            ∧ ∃ i, i ∈ newOrder ∧ has_id (objects c) i l)
  ∧ (∀ l, id <$> objects c' !! l = id <$> objects c !! l
          ∧ content <$> objects c' !! l = content <$> objects c !! l
          ∧ status <$> objects c' !! l = status <$> objects c !! l)
  ∧ (NoDup newOrder → indices_fresh c').
Proof.
  intros Hnd c'. split; [|split; [|split]].
  - rewrite step_ids_omap. subst c'. simpl.
    apply reorder_ids.
    + intros i. symmetry. apply find_step_is_Some.
    + intros l. apply update_indices_id.
  - intros l. subst c'. simpl. split.
    + intros Hl. split; [by apply reorder_found in Hl as [? _]|].
      apply list_elem_of_omap in Hl as (i & Hi & Hfind).
      apply find_step_Some in Hfind as [_ ?]. eauto.
    + intros (Hl & i & Hi & Hid).
      apply list_elem_of_omap. exists i. split; [done|].
      by apply unique_ids_find.
  - intros l. split; [|split].
    + apply update_indices_id.
    + apply update_indices_content.
    + apply update_indices_status.
  - intros Hnew. subst c'. simpl.
    eapply indices_fresh_of_update; [reflexivity|].
    split; simpl; [by apply reorder_NoDup|].
    intros l Hl. simpl in *. apply update_indices_is_Some.
    by apply reorder_found in Hl as [_ ?].
Qed.

(** Three steps a, b, c reordered to c, a, b. *)
Lemma reorder_projects_plan_witness :
  NoDup (step_ids demo)
  ∧ let c' := (onDidReceiveMessage {| now := 2000; uuid := lit "u" |}
                 (reorderSteps [lit "c"; lit "a"; lit "b"]) demo).1 in
    step_ids c' = [lit "c"; lit "a"; lit "b"] ∧ indices_fresh c'.
Proof.
  assert (Hnd : NoDup (step_ids demo)).
  { apply (bool_decide_unpack _). vm_compute. reflexivity. }
  split; [exact Hnd|].
  destruct (reorder_projects_plan demo {| now := 2000; uuid := lit "u" |}
              [lit "c"; lit "a"; lit "b"] Hnd) as (Hids & _ & _ & Hfresh).
  split.
  - rewrite Hids. vm_compute. reflexivity.
  - apply Hfresh. apply (bool_decide_unpack _). vm_compute. reflexivity.
Defined.

(** ** [refineStep] always returns *)

Lemma refineStep_returns openai originalStep allSteps stepIndex taskContext context :
  ∃ text, refineStep openai originalStep allSteps stepIndex taskContext context
          = Normal text.
Proof. unfold refineStep. destruct (refineStep_try _ _ _ _ _ _); eauto. Qed.

Lemma refineStep_on_throw openai originalStep allSteps stepIndex taskContext context e :
  openai (refine_request originalStep allSteps stepIndex taskContext context)
  = Throw e →
  refineStep openai originalStep allSteps stepIndex taskContext context
  = Normal (refine_error_prefix ++ describe_error e).
Proof. intros H. unfold refineStep, refineStep_try. by rewrite H. Qed.

(** ** Which intents broadcast *)

(** C5.  An [editStep] whose content is the content the step already has
    changes nothing (the plan, its steps and [lastModified] are the same
    controller state) and sends nothing.  And every run of the handler either
    leaves the controller as it was and posts no [stateUpdated], or sets
    [lastModified] to the current date and ends by posting [stateUpdated]
    with the whole new state; the continuation of a refinement does the
    latter whenever it runs. *)
Theorem noop_edit_and_broadcasts :
  (∀ c env i l s,
     find_step (objects c) (steps (planState c)) i = Some l →
     objects c !! l = Some s →
     onDidReceiveMessage env (editStep i (content s)) c = (c, []))
  ∧ (∀ c env m,
       let r := onDidReceiveMessage env m c in
       (r.1 = c ∧ ∀ st, post_stateUpdated st ∉ r.2)
       ∨ (lastModified (planState r.1) = now env
          ∧ ∃ before, r.2 = before ++ [post_stateUpdated (snapshot r.1)]))
  ∧ (∀ c k openai t,
       let r := step (RefineSettles k openai t) c in
       (r.1 = c ∧ r.2 = [])
       ∨ (lastModified (planState r.1) = t
          ∧ r.2 = [post_stateUpdated (snapshot r.1)])).
Proof.
  split; [|split].
  - intros c env i l s Hfind Hs. unfold onDidReceiveMessage. simpl.
    rewrite Hfind, Hs. simpl. by rewrite decide_True.
  - intros c env m. unfold onDidReceiveMessage.
    destruct m as [i|i|i text|newOrder|i|afterId text| |text]; simpl.
    + destruct (find_step _ _ i); simpl; [right; split; [done|by exists nil]|left].
      split; [done|]. intros st Hst. by apply elem_of_nil in Hst.
    + destruct (find_step _ _ i); simpl; [right; split; [done|by exists (cons (post_updateStepStatus i refining) nil)]|left].
      split; [done|]. intros st Hst. by apply elem_of_nil in Hst.
    + destruct (find_step _ _ i); simpl.
      * case_decide; simpl; [left|right; split; [done|by exists nil]].
        split; [done|]. intros st Hst. by apply elem_of_nil in Hst.
      * left. split; [done|]. intros st Hst. by apply elem_of_nil in Hst.
    + right. split; [done|by exists nil].
    + right. split; [done|by exists nil].
    + right. split; [done|by exists nil].
    + left. split; [done|]. intros st Hst.
      apply list_elem_of_singleton in Hst. discriminate Hst.
    + left. split; [done|]. intros st Hst.
      apply list_elem_of_singleton in Hst. discriminate Hst.
  - intros c k openai t. simpl.
    destruct (inflight c !! k) as [call|]; [|by left]. right.
    unfold refine_continuation.
    destruct (refineStep_returns openai (arg_originalStep call) (arg_allSteps call)
                (arg_stepIndex call) (arg_taskContext call) (arg_projectContext call))
      as [text ->].
    done.
Qed.

Lemma noop_edit_and_broadcasts_witness :
  onDidReceiveMessage {| now := 2000; uuid := lit "u" |}
    (editStep (lit "b") (lit "Create the user model.")) demo = (demo, []).
Proof.
  apply (proj1 noop_edit_and_broadcasts demo {| now := 2000; uuid := lit "u" |}
           (lit "b") 1%nat
           {| id := lit "b"; content := lit "Create the user model.";
              status := None; originalIndex := 2 |});
    vm_compute; reflexivity.
Defined.

(** ** Intents that name no step *)

Lemma filter_all {A} (P : A → Prop) `{!∀ x, Decision (P x)} (xs : list A) :
  Forall P xs → filter P xs = xs.
Proof.
  induction 1 as [|x xs Hx _ IH]; [done|].
  rewrite filter_cons, decide_True by done. by rewrite IH.
Qed.

(** C6, as amended.  When no step has the identifier, [acceptStep],
    [rejectStep] and [editStep] change nothing and send nothing.
    [deleteStep] keeps the list of steps and the identifier, content and
    status of every object (and the whole store when the display indices were
    fresh), but it sets [lastModified] to the current date and posts
    [stateUpdated]. *)
Theorem lookup_miss (c : Controller) (env : Env) (i : js_string) :
  i ∉ step_ids c →
  onDidReceiveMessage env (acceptStep i) c = (c, [])
  ∧ onDidReceiveMessage env (rejectStep i) c = (c, [])
  ∧ (∀ text, onDidReceiveMessage env (editStep i text) c = (c, []))
  ∧ (let r := onDidReceiveMessage env (deleteStep i) c in
     steps (planState r.1) = steps (planState c)
     ∧ (∀ l, id <$> objects r.1 !! l = id <$> objects c !! l
             ∧ content <$> objects r.1 !! l = content <$> objects c !! l
             ∧ status <$> objects r.1 !! l = status <$> objects c !! l)
     ∧ (indices_fresh c → objects r.1 = objects c)
     ∧ taskDescription (planState r.1) = taskDescription (planState c)
     ∧ lastModified (planState r.1) = now env
     ∧ r.2 = [post_stateUpdated (snapshot r.1)]).
Proof.
  intros Hmiss.
  assert (Hnone : find_step (objects c) (steps (planState c)) i = None).
  { destruct (find_step _ _ i) eqn:E; [|done].
    exfalso. apply Hmiss, find_step_is_Some. by rewrite E. }
  assert (Hkeep : filter (λ l, ¬ has_id (objects c) i l) (steps (planState c))
                  = steps (planState c)).
  { apply filter_all, Forall_forall. by apply find_step_None. }
  unfold onDidReceiveMessage, updateStepIndices. simpl. rewrite Hnone, Hkeep. simpl.
  repeat split; try done.
  - apply update_indices_id.
  - apply update_indices_content.
  - apply update_indices_status.
  - intros Hfresh. by apply update_indices_fresh.
Qed.

Lemma lookup_miss_witness :
  (lit "zzz" ∉ step_ids demo)
  ∧ onDidReceiveMessage {| now := 2000; uuid := lit "u" |}
      (acceptStep (lit "zzz")) demo = (demo, []).
Proof.
  assert (Hmiss : lit "zzz" ∉ step_ids demo).
  { apply (bool_decide_unpack _). vm_compute. reflexivity. }
  split; [exact Hmiss|].
  apply (lookup_miss demo {| now := 2000; uuid := lit "u" |} (lit "zzz") Hmiss).
Defined.

(** C6 as stated fails for [deleteStep]: with an identifier that no step
    has, the handler still refreshes [lastModified] and posts the state. *)
Lemma delete_missing_id_broadcasts :
  let r := onDidReceiveMessage {| now := 2000; uuid := lit "u" |}
             (deleteStep (lit "zzz")) demo in
  (lit "zzz" ∉ step_ids demo)
  ∧ lastModified (planState demo) = 1000
  ∧ lastModified (planState r.1) = 2000
  ∧ r.2 = [post_stateUpdated (snapshot r.1)]
  ∧ r ≠ (demo, []).
Proof.
  split; [apply (bool_decide_unpack _); vm_compute; reflexivity|].
  split; [reflexivity|]. split; [reflexivity|]. split; [reflexivity|].
  intros H. apply (f_equal snd) in H. discriminate H.
Qed.

(** ** Adding a step *)

Lemma omap_ext_in {A B} (f g : A → option B) (xs : list A) :
  (∀ x, x ∈ xs → f x = g x) → omap f xs = omap g xs.
Proof.
  induction xs as [|x xs IH]; intros H; [done|]. simpl.
  rewrite (H x) by left. destruct (g x); [f_equal|]; apply IH; intros; apply H; by right.
Qed.

Lemma addStep_objects env afterId text c :
  objects (onDidReceiveMessage env (addStep afterId text) c).1
  = updateStepIndices
      (steps (planState (onDidReceiveMessage env (addStep afterId text) c).1))
      (<[fresh (dom (objects c)) :=
           {| id := uuid env; content := text; status := Some edited;
              originalIndex := -1 |}]> (objects c)).
Proof. reflexivity. Qed.

(** In a well-formed plan whose identifiers are not empty,
    [addStep afterId content] creates one new object with the
    identifier just drawn, the given content and status [edited]; the new
    plan is the old one with that object right after the first step whose
    identifier is [afterId], or at the end when [afterId] is [null] or names
    no step; every other object keeps identifier, content and status; and the
    display indices of the new plan are 1, 2, 3, ... *)
Lemma addStep_at (c : Controller) (env : Env) (afterId : option js_string)
    (text : js_string) :
  well_formed c → [] ∉ step_ids c →
  let r := onDidReceiveMessage env (addStep afterId text) c in
  let new := fresh (dom (objects c)) in
  let ss := steps (planState c) in
  (new ∉ ss)
  ∧ steps (planState r.1)
    = match afterId ≫= findIndex (objects c) ss with
      | Some k => take (S k) ss ++ new :: drop (S k) ss
      | None => ss ++ [new]
      end
  ∧ (id <$> objects r.1 !! new = Some (uuid env)
     ∧ content <$> objects r.1 !! new = Some text
     ∧ status <$> objects r.1 !! new = Some (Some edited))
  ∧ (∀ l, l ≠ new →
       id <$> objects r.1 !! l = id <$> objects c !! l
       ∧ content <$> objects r.1 !! l = content <$> objects c !! l
       ∧ status <$> objects r.1 !! l = status <$> objects c !! l)
  ∧ indices_fresh r.1.
Proof.
  intros Hwf Hne r new ss.
  assert (Hfresh : new ∉ ss) by (apply fresh_not_listed, Hwf).
  split; [done|]. split; [|split; [|split]].
  - subst r. unfold onDidReceiveMessage. simpl.
    destruct afterId as [[|a0 a]|]; simpl;
      [|destruct (findIndex _ _ _); [by rewrite Nat.add_1_r|done]|done].
    assert (findIndex (objects c) ss [] = None) as ->; [|done].
    apply findIndex_None. intros l Hl Hid. apply Hne, elem_of_step_ids. eauto.
  - subst r. rewrite addStep_objects. unfold updateStepIndices.
    rewrite update_indices_id, update_indices_content, update_indices_status.
    by rewrite lookup_insert_eq.
  - intros l Hl. subst r. rewrite addStep_objects. unfold updateStepIndices.
    rewrite update_indices_id, update_indices_content, update_indices_status.
    by rewrite lookup_insert_ne.
  - apply (structural_step_fresh (Receive env (addStep afterId text)) c); done.
Qed.

(** ** Identifiers *)

Lemma id_alter (f : PlanStep → PlanStep) (a : loc) (objs : gmap loc PlanStep) l :
  (∀ s, id (f s) = id s) → id <$> alter f a objs !! l = id <$> objs !! l.
Proof.
  intros Hf. destruct (decide (a = l)) as [->|Hne].
  - rewrite lookup_alter_eq. destruct (objs !! l); simpl; [by rewrite Hf|done].
  - by rewrite lookup_alter_ne.
Qed.

Lemma in_place_keeps_ids e c :
  in_place e →
  steps (planState (step e c).1) = steps (planState c)
  ∧ ∀ l, id <$> objects (step e c).1 !! l = id <$> objects c !! l.
Proof.
  intros He. destruct e as [env m|k openai t]; simpl.
  - unfold onDidReceiveMessage.
    destruct m as [i|i|i text| | | | |]; try done; simpl.
    + destruct (find_step _ _ i) as [found|]; simpl; [|done]. split; [done|].
      intros l. by apply id_alter.
    + destruct (find_step _ _ i) as [found|]; simpl; [|done]. split; [done|].
      intros l. by apply id_alter.
    + destruct (find_step _ _ i) as [found|]; simpl; [|done].
      case_decide; simpl; [done|]. split; [done|]. intros l. by apply id_alter.
  - destruct (inflight c !! k) as [call|]; simpl; [|done].
    unfold refine_continuation. destruct (refineStep _ _ _ _ _ _); simpl; [|done].
    split; [done|]. intros l. by apply id_alter.
Qed.

Lemma step_ids_ext (c c' : Controller) :
  steps (planState c') = steps (planState c) →
  (∀ l, id <$> objects c' !! l = id <$> objects c !! l) →
  step_ids c' = step_ids c.
Proof.
  intros Hs Hid. rewrite !step_ids_omap, Hs. by apply omap_ext_in.
Qed.

Lemma step_ids_of_update (c : Controller) (ss : list loc) (objs : gmap loc PlanStep) :
  steps (planState c) = ss →
  objects c = updateStepIndices (steps (planState c)) objs →
  step_ids c = omap (λ l, id <$> objs !! l) ss.
Proof.
  intros Hs Hobj. rewrite step_ids_omap, Hobj, Hs. apply omap_ext_in.
  intros l _. apply update_indices_id.
Qed.

Lemma omap_cons_Some {A B} (f : A → option B) x y (xs : list A) :
  f x = Some y → omap f (x :: xs) = y :: omap f xs.
Proof. intros H. simpl. by rewrite H. Qed.

Lemma delete_ids (g : loc → option js_string) (i : js_string) (ss : list loc) :
  omap g (filter (λ l, g l ≠ Some i) ss) = filter (λ j, j ≠ i) (omap g ss).
Proof.
  induction ss as [|a ss IH]; [done|].
  rewrite filter_cons. simpl. destruct (g a) as [j|] eqn:E.
  - rewrite filter_cons. destruct (decide (j = i)) as [->|Hne].
    + rewrite decide_False by naive_solver. rewrite decide_False by naive_solver. done.
    + rewrite decide_True by naive_solver. rewrite decide_True by done.
      simpl. rewrite E. f_equal. exact IH.
  - rewrite decide_True by done. simpl. rewrite E. exact IH.
Qed.

Lemma remove_one_perm (i : js_string) (ids : list js_string) :
  NoDup ids → i ∈ ids → ids ≡ₚ i :: filter (λ j, j ≠ i) ids.
Proof.
  induction 1 as [|j ids Hj Hnd IH]; intros Hi; [by apply elem_of_nil in Hi|].
  rewrite filter_cons. destruct (decide (j = i)) as [->|Hne].
  - rewrite decide_False by naive_solver.
    rewrite filter_all; [done|]. apply Forall_forall. intros x Hx ->. done.
  - rewrite decide_True by done. apply elem_of_cons in Hi as [->|Hi]; [done|].
    rewrite (IH Hi) at 1. apply perm_swap.
Qed.

(** Accept, reject, edit and the continuation of a refinement keep the
    list of steps and the identifier of every object, so the identifiers of
    the plan are the same list.  [deleteStep i] leaves the identifiers of the
    plan other than [i], in order, and changes no object's identifier; in a
    plan with distinct identifiers that has [i], the old identifiers are [i]
    and the new ones.  [addStep] adds one identifier, the one just drawn, and
    changes no other object's identifier; when the identifier drawn is not in
    the plan, as a UUID is taken to be, distinct identifiers stay distinct. *)
Lemma identifiers_kept :
  (∀ c e, in_place e →
     steps (planState (step e c).1) = steps (planState c)
     ∧ (∀ l, id <$> objects (step e c).1 !! l = id <$> objects c !! l)
     ∧ step_ids (step e c).1 = step_ids c)
  ∧ (∀ c env i,
       let c' := (step (Receive env (deleteStep i)) c).1 in
       step_ids c' = filter (λ j, j ≠ i) (step_ids c)
       ∧ (∀ l, id <$> objects c' !! l = id <$> objects c !! l)
       ∧ (NoDup (step_ids c) → i ∈ step_ids c → step_ids c ≡ₚ i :: step_ids c'))
  ∧ (∀ c env afterId text,
       steps_live c →
       let c' := (step (Receive env (addStep afterId text)) c).1 in
       step_ids c' ≡ₚ uuid env :: step_ids c
       ∧ (∀ l, l ≠ fresh (dom (objects c)) →
            id <$> objects c' !! l = id <$> objects c !! l)
       ∧ (uuid env ∉ step_ids c → NoDup (step_ids c) → NoDup (step_ids c'))).
Proof.
  split; [|split].
  - intros c e He. destruct (in_place_keeps_ids e c He) as [Hs Hid].
    split; [done|]. split; [done|]. by apply step_ids_ext.
  - intros c env i c'.
    assert (Hids : step_ids c' = filter (λ j, j ≠ i) (step_ids c)).
    { rewrite !step_ids_omap. subst c'. simpl. rewrite <- delete_ids.
      apply omap_ext_in. intros l _. apply update_indices_id. }
    split; [done|]. split.
    + intros l. apply update_indices_id.
    + intros Hnd Hi. rewrite Hids. by apply remove_one_perm.
  - intros c env afterId text Hlive c'.
    pose proof (fresh_not_listed c Hlive) as Hfresh.
    assert (Hperm : step_ids c' ≡ₚ uuid env :: step_ids c).
    { destruct (addStep_steps env afterId text c) as [n Hn].
      rewrite (step_ids_of_update c' _ _ Hn (addStep_objects env afterId text c)).
      rewrite insert_middle_perm, step_ids_omap.
      erewrite omap_cons_Some by (by rewrite lookup_insert_eq).
      apply perm_skip.
      rewrite (omap_ext_in _ (λ l, id <$> objects c !! l)); [done|].
      intros l Hl. rewrite lookup_insert_ne; [done|]. by intros <-. }
    split; [done|]. split.
    + intros l Hl. subst c'. simpl step. rewrite addStep_objects.
      unfold updateStepIndices. by rewrite update_indices_id, lookup_insert_ne.
    + intros Hnew Hnd. rewrite Hperm. by constructor.
Qed.

(** ** [refineStep] *)


(** ** Rejecting a step *)

(** C3, as amended.  [rejectStep] on a step that exists marks it [rejected],
    posts the [refining] flash and the state, and leaves a refinement in
    flight for that object.  When that refinement settles, the object gets
    the string that [refineStep] returned as content and status [edited],
    [lastModified] is refreshed and the state is posted: this is so whether
    the API call succeeded or failed, and when it failed the content is the
    error text. *)
Theorem reject_lifecycle :
  (∀ c env i l s,
     find_step (objects c) (steps (planState c)) i = Some l →
     objects c !! l = Some s →
     let r := step (Receive env (rejectStep i)) c in
     objects r.1 !! l = Some (set_status (Some rejected) s)
     ∧ r.2 = [post_updateStepStatus i refining; post_stateUpdated (snapshot r.1)]
     ∧ ∃ call, inflight r.1 = inflight c ++ [call]
               ∧ target call = l ∧ arg_originalStep call = content s)
  ∧ (∀ c k call s openai t,
       inflight c !! k = Some call →
       objects c !! target call = Some s →
       let r := step (RefineSettles k openai t) c in
       ∃ text,
         refineStep openai (arg_originalStep call) (arg_allSteps call)
           (arg_stepIndex call) (arg_taskContext call) (arg_projectContext call)
         = Normal text
         ∧ objects r.1 !! target call
           = Some {| id := id s; content := text; status := Some edited;
                     originalIndex := originalIndex s |}
         ∧ lastModified (planState r.1) = t
         ∧ r.2 = [post_stateUpdated (snapshot r.1)]
         ∧ (∀ e, openai (refine_request (arg_originalStep call) (arg_allSteps call)
                           (arg_stepIndex call) (arg_taskContext call)
                           (arg_projectContext call)) = Throw e →
              text = refine_error_prefix ++ describe_error e)).
Proof.
  split.
  - intros c env i l s Hfind Hs r. subst r. simpl. unfold onDidReceiveMessage.
    simpl. rewrite Hfind. simpl. rewrite !lookup_alter_eq, Hs. simpl.
    split; [done|]. split; [done|]. eexists. split; [reflexivity|]. done.
  - intros c k call s openai t Hk Hs r. subst r. simpl. rewrite Hk.
    unfold refine_continuation.
    pose proof (refineStep_returns openai (arg_originalStep call) (arg_allSteps call)
                  (arg_stepIndex call) (arg_taskContext call)
                  (arg_projectContext call)) as [text Htext].
    pose proof (refineStep_on_throw openai (arg_originalStep call) (arg_allSteps call)
                  (arg_stepIndex call) (arg_taskContext call)
                  (arg_projectContext call)) as Hfail.
    rewrite Htext. exists text. simpl. rewrite lookup_alter_eq, Hs. simpl.
    repeat split; try done.
    intros e He. specialize (Hfail e He). rewrite Htext in Hfail.
    by injection Hfail.
Qed.

Lemma reject_lifecycle_witness :
  objects (step (Receive {| now := 2000; uuid := lit "u" |} (rejectStep (lit "b")))
             demo).1 !! 1%nat
  = Some {| id := lit "b"; content := lit "Create the user model.";
            status := Some rejected; originalIndex := 2 |}.
Proof.
  refine (proj1 (proj1 reject_lifecycle demo {| now := 2000; uuid := lit "u" |}
                   (lit "b") 1%nat
                   {| id := lit "b"; content := lit "Create the user model.";
                      status := None; originalIndex := 2 |} _ _));
    vm_compute; reflexivity.
Defined.

(** C3 as stated fails: after a refinement that failed, the step holds the
    error text and its status is [edited], not [rejected]. *)
Lemma failed_refine_marks_edited :
  let c1 := (step (Receive {| now := 2000; uuid := lit "u" |}
                     (rejectStep (lit "b"))) demo).1 in
  let c2 := (step (RefineSettles 0
                     (λ _, Throw (ErrorObject (lit "429 quota exceeded"))) 3000)
               c1).1 in
  status <$> step_at c1 1 = Some (Some rejected)
  ∧ step_at c2 1
    = Some {| id := lit "b";
              content := lit "Error generating alternative: 429 quota exceeded";
              status := Some edited; originalIndex := 2 |}
  ∧ status <$> step_at c2 1 ≠ Some (Some rejected).
Proof.
  split; [vm_compute; reflexivity|]. split; [vm_compute; reflexivity|].
  vm_compute. discriminate.
Qed.

(** ** Parsing a plan *)

Section CharacterClasses.
Implicit Types (c : code_unit) (s x : js_string).

Lemma digit_cases c :
  is_digit c = true →
  (c = 48 ∨ c = 49 ∨ c = 50 ∨ c = 51 ∨ c = 52 ∨ c = 53 ∨ c = 54 ∨ c = 55
   ∨ c = 56 ∨ c = 57)%N.
Proof.
  unfold is_digit. intros [H1 H2]%andb_true_iff.
  apply N.leb_le in H1. apply N.leb_le in H2. lia.
Qed.

Lemma digit_not_space c : is_digit c = true → is_space c = false.
Proof. intros H%digit_cases. repeat destruct H as [->|H]; try subst c; reflexivity. Qed.

Lemma letter_cases up c :
  is_letter_ci up c = true → c = up ∨ c = (up + 32)%N.
Proof.
  unfold is_letter_ci. intros [H|H]%orb_true_iff; apply N.eqb_eq in H; auto.
Qed.

Lemma space_not_start c : is_space c = true → starts_label c = false.
Proof.
  intros H. unfold starts_label, is_letter_ci.
  destruct (N.eqb_spec c 83) as [->|_]; [discriminate H|].
  destruct (N.eqb_spec c (83 + 32)) as [->|_]; [discriminate H|]. done.
Qed.

Lemma start_not_space c : starts_label c = true → is_space c = false.
Proof.
  intros H. destruct (is_space c) eqn:E; [|done].
  apply space_not_start in E. congruence.
Qed.

Lemma digit_not_start c : is_digit c = true → starts_label c = false.
Proof. intros H%digit_cases. repeat destruct H as [->|H]; try subst c; reflexivity. Qed.

Lemma other_letter_not_start up c :
  (up = 84 ∨ up = 69 ∨ up = 80)%N → is_letter_ci up c = true →
  starts_label c = false.
Proof.
  intros Hup [->| ->]%letter_cases; destruct Hup as [->|[->| ->]]; reflexivity.
Qed.

Lemma take_drop_while p s : take_while p s ++ drop_while p s = s.
Proof. induction s as [|c s IH]; simpl; [done|]. destruct (p c); simpl; congruence. Qed.

Lemma take_while_all p s : Forall (λ c, p c = true) (take_while p s).
Proof.
  induction s as [|c s IH]; simpl; [constructor|].
  destruct (p c) eqn:E; by constructor.
Qed.

Lemma drop_while_head p s c r : drop_while p s = c :: r → p c = false.
Proof.
  induction s as [|a s IH]; simpl; [done|].
  destruct (p a) eqn:E; [done|]. by intros [= <- _].
Qed.

(** A run of [p] followed by something that does not start with [p]. *)
Lemma while_run p (run rest : js_string) :
  Forall (λ c, p c = true) run →
  match rest with [] => True | c :: _ => p c = false end →
  take_while p (run ++ rest) = run ∧ drop_while p (run ++ rest) = rest.
Proof.
  intros Hrun Hrest. induction Hrun as [|c run Hc _ [IH1 IH2]]; simpl.
  - destruct rest as [|c r]; simpl; [done|]. by rewrite Hrest.
  - rewrite Hc. by rewrite IH1, IH2.
Qed.

Lemma drop_while_drop p s : drop_while p s = drop (length (take_while p s)) s.
Proof. induction s as [|c s IH]; simpl; [done|]. by destruct (p c). Qed.

Lemma drop_while_idem p s : drop_while p (drop_while p s) = drop_while p s.
Proof.
  destruct (drop_while p s) as [|c r] eqn:E; [done|].
  apply drop_while_head in E. simpl. by rewrite E.
Qed.
End CharacterClasses.

Section Trim.
Implicit Types (c : code_unit) (s x : js_string).

Lemma trimEnd_tight front c x :
  is_space c = false → trimEnd (front ++ c :: x) = front ++ c :: trimEnd x.
Proof.
  intros Hc. induction front as [|a front IH]; simpl.
  - rewrite Hc. by destruct (trimEnd x).
  - rewrite IH. by destruct front.
Qed.

Lemma trimEnd_cons c s :
  trimEnd (c :: s)
  = match trimEnd s with
    | [] => if is_space c then [] else [c]
    | _ :: _ => c :: trimEnd s
    end.
Proof. simpl. by destruct (trimEnd s). Qed.

Lemma trimEnd_idem s : trimEnd (trimEnd s) = trimEnd s.
Proof.
  induction s as [|c s IH]; simpl; [done|].
  destruct (trimEnd s) as [|a kept] eqn:E.
  - destruct (is_space c) eqn:Ec; simpl; [done|]. by rewrite Ec.
  - by rewrite (trimEnd_cons c (a :: kept)), IH.
Qed.

Lemma trimEnd_prefix s : ∃ ws, s = trimEnd s ++ ws.
Proof.
  induction s as [|c s [ws IH]]; simpl; [by exists []|].
  destruct (trimEnd s) as [|a kept] eqn:E.
  - destruct (is_space c); [by exists (c :: s)|].
    exists s. done.
  - exists ws. simpl in *. by rewrite <- IH.
Qed.

(** Stripping the two ends in either order gives the same string. *)
Lemma trim_comm s : trimEnd (trimStart s) = trimStart (trimEnd s).
Proof.
  unfold trimStart. induction s as [|c s IH]; simpl; [done|].
  destruct (is_space c) eqn:Ec.
  - rewrite IH. destruct (trimEnd s) as [|a kept] eqn:E; simpl; by rewrite ?Ec.
  - destruct (trimEnd s) as [|a kept] eqn:E; simpl; by rewrite ?E, ?Ec.
Qed.

Lemma trim_idem s : trim (trim s) = trim s.
Proof.
  unfold trim. rewrite (trim_comm (trimEnd _)), trimEnd_idem.
  rewrite <- trim_comm. unfold trimStart. by rewrite drop_while_idem.
Qed.
End Trim.

Section Labels.
Implicit Types (c : code_unit) (s x r lab body : js_string).

Lemma match_label_spec s r :
  match_label s = Some r ↔ ∃ lab, label_text lab ∧ s = lab ++ r.
Proof.
  split.
  - unfold match_label. destruct s as [|c1 [|c2 [|c3 [|c4 rr]]]]; try done.
    destruct (is_letter_ci 83 c1) eqn:E1; [|done].
    destruct (is_letter_ci 84 c2) eqn:E2; [|done].
    destruct (is_letter_ci 69 c3) eqn:E3; [|done].
    destruct (is_letter_ci 80 c4) eqn:E4; [|done]. simpl.
    pose proof (take_drop_while is_space rr) as Hrr.
    pose proof (take_while_all is_space rr) as Hws.
    destruct (take_while is_space rr) as [|w ws] eqn:Ews; [done|].
    pose proof (take_drop_while is_digit (drop_while is_space rr)) as Hr1.
    pose proof (take_while_all is_digit (drop_while is_space rr)) as Hds.
    destruct (take_while is_digit (drop_while is_space rr)) as [|d ds] eqn:Eds;
      [done|].
    destruct (drop_while is_digit (drop_while is_space rr)) as [|c r2] eqn:Er;
      [done|].
    destruct (N.eqb_spec c 58) as [->|_]; [|done]. intros [= ->].
    exists (c1 :: c2 :: c3 :: c4 :: (w :: ws) ++ (d :: ds) ++ [58%N]). split.
    + exists c1, c2, c3, c4, (w :: ws), (d :: ds). by repeat split.
    + rewrite <- Hrr, <- Hr1. by list_assoc.
  - intros (lab & (c1 & c2 & c3 & c4 & ws & ds & -> & E1 & E2 & E3 & E4
                    & Hws0 & Hws & Hds0 & Hds) & ->).
    destruct ds as [|d ds]; [done|]. destruct ws as [|w ws]; [done|].
    assert (Hd : is_digit d = true) by by apply Forall_cons in Hds as [? _].
    destruct (while_run is_space (w :: ws) ((d :: ds) ++ [58%N] ++ r) Hws)
      as [Ht1 Hd1]; [by apply digit_not_space|].
    destruct (while_run is_digit (d :: ds) ([58%N] ++ r) Hds) as [Ht2 Hd2];
      [done|].
    assert ((c1 :: c2 :: c3 :: c4 :: (w :: ws) ++ (d :: ds) ++ [58%N]) ++ r
            = c1 :: c2 :: c3 :: c4 :: ((w :: ws) ++ (d :: ds) ++ [58%N] ++ r))
      as -> by by list_assoc.
    unfold match_label. rewrite E1, E2, E3, E4.
    rewrite Ht1, Hd1, Ht2, Hd2. done.
Qed.

Lemma is_label_text lab : is_label lab ↔ label_text lab.
Proof.
  unfold is_label. rewrite match_label_spec. split.
  - intros (lab' & H & ->). by rewrite app_nil_r.
  - intros H. exists lab. by rewrite app_nil_r.
Qed.

(** A label followed by anything is matched as that label. *)
Lemma match_label_app lab x : is_label lab → match_label (lab ++ x) = Some x.
Proof. intros H%is_label_text. apply match_label_spec. eauto. Qed.

Lemma match_label_split s r :
  match_label s = Some r → ∃ lab, is_label lab ∧ s = lab ++ r.
Proof.
  intros (lab & H & ->)%match_label_spec. exists lab. by rewrite is_label_text.
Qed.

Lemma match_label_extend s r x :
  match_label s = Some r → match_label (s ++ x) = Some (r ++ x).
Proof.
  intros (lab & H & ->)%match_label_split. rewrite <- app_assoc.
  by apply match_label_app.
Qed.

(** A label starts with an S, holds no other S and ends with a colon. *)
Lemma label_shape lab :
  is_label lab →
  ∃ c inner, lab = c :: inner ++ [58%N] ∧ starts_label c = true
             ∧ Forall (λ a, starts_label a = false) (inner ++ [58%N]).
Proof.
  intros (c1 & c2 & c3 & c4 & ws & ds & -> & E1 & E2 & E3 & E4
          & _ & Hws & _ & Hds)%is_label_text.
  exists c1, (c2 :: c3 :: c4 :: ws ++ ds). split; [|split; [done|]].
  - by list_assoc.
  - simpl. repeat apply Forall_cons_2.
    + by apply (other_letter_not_start 84); auto.
    + by apply (other_letter_not_start 69); auto.
    + by apply (other_letter_not_start 80); auto.
    + rewrite <- app_assoc. apply Forall_app_2; [|apply Forall_app_2].
      * eapply Forall_impl; [exact Hws|]. apply space_not_start.
      * eapply Forall_impl; [exact Hds|]. apply digit_not_start.
      * by repeat constructor.
Qed.

Lemma match_label_starts s r :
  match_label s = Some r → ∃ c s', s = c :: s' ∧ starts_label c = true.
Proof.
  intros (lab & (c & inner & -> & Hc & _)%label_shape & ->)%match_label_split.
  simpl. eauto.
Qed.

Lemma no_label_cons c s :
  no_label (c :: s)
  = match match_label (c :: s) with Some _ => false | None => no_label s end.
Proof. reflexivity. Qed.

Lemma no_label_spec s : label_free s ↔ ∀ n, match_label (drop n s) = None.
Proof.
  unfold label_free. induction s as [|c s IH].
  - split; [|done]. intros _ n. by rewrite drop_nil.
  - rewrite no_label_cons. destruct (match_label (c :: s)) eqn:E.
    + split; [done|]. intros H. specialize (H 0%nat).
      rewrite drop_0 in H. congruence.
    + rewrite IH. split.
      * intros H [|n]; [by rewrite drop_0|]. apply H.
      * intros H n. apply (H (S n)).
Qed.
End Labels.

Section Split.
Implicit Types (c : code_unit) (s x r lab body tail : js_string).

Lemma not_start_no_label c s : starts_label c = false → match_label (c :: s) = None.
Proof.
  intros Hc. destruct (match_label (c :: s)) eqn:E; [|done].
  apply match_label_starts in E as (c' & s' & [= <- <-] & E). congruence.
Qed.

(** No label starts inside a body, whatever follows the body, as long as
    what follows is nothing or starts with a label. *)
Lemma no_straddle body tail n :
  label_free body → (n < length body)%nat →
  tail = [] ∨ is_Some (match_label tail) →
  match_label (drop n body ++ tail) = None.
Proof.
  intros Hfree Hn Htail. rewrite no_label_spec in Hfree.
  destruct (match_label (drop n body ++ tail)) as [r|] eqn:E; [exfalso|done].
  apply match_label_split in E as (lab & Hlab & Heq).
  assert (Hhere : ∀ l, drop n body = lab ++ l → False).
  { intros l Hl. specialize (Hfree n). rewrite Hl in Hfree.
    by rewrite (match_label_app lab l Hlab) in Hfree. }
  apply app_eq_app in Heq as [l [[Hb _]|[Hl Ht]]]; [by eapply Hhere|].
  destruct l as [|a l]; [rewrite app_nil_r in Hl; apply (Hhere []); by rewrite app_nil_r|].
  destruct Htail as [->|[r' Hr']]; [done|].
  apply match_label_starts in Hr' as (a' & t' & Ht' & Ha').
  rewrite Ht in Ht'. injection Ht' as <- _.
  apply label_shape in Hlab as (c & inner & Hlab & _ & Hinner).
  destruct (drop n body) as [|b0 b] eqn:Eb.
  { apply (f_equal length) in Eb. rewrite length_drop in Eb. simpl in Eb. lia. }
  rewrite Hl in Hlab. injection Hlab as _ Hlab.
  rewrite <- Hlab in Hinner. apply Forall_app in Hinner as [_ Hinner].
  apply Forall_cons in Hinner as [Hinner _]. congruence.
Qed.

(** No label starts inside a labelled section after its first character. *)
Lemma no_cut_inside lab body tail n :
  is_label lab → label_free body →
  tail = [] ∨ is_Some (match_label tail) →
  (1 ≤ n < length (lab ++ body))%nat →
  match_label (drop n (lab ++ body) ++ tail) = None.
Proof.
  intros Hlab Hfree Htail [Hn1 Hn2]. rewrite length_app in Hn2.
  destruct (decide (n < length lab)%nat) as [Hlt|Hge].
  - rewrite drop_app_le by lia.
    destruct (lookup_lt_is_Some_2 lab n Hlt) as [a Ha].
    rewrite (drop_S _ _ _ Ha). list_assoc. apply not_start_no_label.
    apply label_shape in Hlab as (c & inner & -> & _ & Hinner).
    destruct n as [|n]; [lia|]. simpl in Ha.
    eapply Forall_forall in Hinner; [exact Hinner|].
    by eapply list_elem_of_lookup_2.
  - rewrite drop_app_ge by lia. apply no_straddle; [done|lia|done].
Qed.

(** A chunk without cuts inside is one piece. *)
Lemma split_pieces_chunk s tail :
  s ≠ [] →
  (∀ n, (1 ≤ n < length s)%nat → match_label (drop n s ++ tail) = None) →
  tail = [] ∨ is_Some (match_label tail) →
  split_pieces (s ++ tail)
  = (s, match tail with [] => [] | _ :: _ => split_on_labels tail end).
Proof.
  intros Hs Hcut Htail. induction s as [|c s IH]; [done|].
  destruct s as [|c' s].
  - simpl. unfold split_on_labels. destruct (split_pieces tail) as [piece others] eqn:E.
    destruct tail as [|t tail]; [by injection E as <- <-|].
    destruct Htail as [?|[r Hr]]; [done|]. by rewrite Hr.
  - assert (Hnone : match_label ((c' :: s) ++ tail) = None).
    { apply (Hcut 1%nat). simpl. lia. }
    change (split_pieces ((c :: c' :: s) ++ tail))
      with (let '(piece, others) := split_pieces ((c' :: s) ++ tail) in
            match (c' :: s) ++ tail with
            | [] => ([c], others)
            | _ :: _ =>
                match match_label ((c' :: s) ++ tail) with
                | Some _ => ([c], piece :: others)
                | None => (c :: piece, others)
                end
            end).
    rewrite IH, Hnone; [done|done|].
    intros n Hn. apply (Hcut (S n)). simpl in *. lia.
Qed.

Lemma sections_text_cons lab body (rest : list (js_string * js_string)) :
  sections_text ((lab, body) :: rest) = (lab ++ body) ++ sections_text rest.
Proof. reflexivity. Qed.

Lemma sections_text_head (sections : list (js_string * js_string)) :
  Forall section_ok sections →
  sections_text sections = [] ∨ is_Some (match_label (sections_text sections)).
Proof.
  intros Hok. destruct Hok as [|[lab body] rest [Hlab _] _]; [by left|right].
  rewrite sections_text_cons, <- app_assoc.
  rewrite (match_label_app _ _ Hlab). done.
Qed.

Lemma label_nonempty lab : is_label lab → lab ≠ [].
Proof. by intros (c & inner & -> & _)%label_shape. Qed.

(** The pieces of a text made of labelled sections are the sections. *)
Lemma split_sections (sections : list (js_string * js_string)) :
  Forall section_ok sections → sections ≠ [] →
  split_on_labels (sections_text sections) = map (λ p, p.1 ++ p.2) sections.
Proof.
  induction 1 as [|[lab body] rest [Hlab Hfree] Hrest IH]; [done|]. intros _.
  pose proof (sections_text_head rest Hrest) as Htail.
  rewrite sections_text_cons. unfold split_on_labels at 1.
  rewrite split_pieces_chunk; [| |by intros; apply no_cut_inside|done].
  - simpl. f_equal. destruct rest as [|[lab' body'] rest]; [done|].
    rewrite <- IH by done. rewrite sections_text_cons.
    destruct ((lab' ++ body') ++ sections_text rest) eqn:E; [|done].
    apply app_eq_nil in E as [E _]. apply app_eq_nil in E as [E _].
    apply Forall_cons in Hrest as [[Hlab' _] _]. by apply label_nonempty in Hlab'.
  - intros [E _]%app_eq_nil. by apply label_nonempty in Hlab.
Qed.
End Split.

Section Parse.
Implicit Types (c : code_unit) (s pre lab body : js_string).

Lemma trim_labelled lab body :
  is_label lab → trim (lab ++ body) = lab ++ trimEnd body.
Proof.
  intros (c & inner & -> & Hc & _)%label_shape. unfold trim, trimStart.
  simpl. rewrite (start_not_space c Hc).
  replace (c :: (inner ++ [58%N]) ++ body) with ((c :: inner) ++ 58%N :: body)
    by by list_assoc.
  rewrite trimEnd_tight by done. by list_assoc.
Qed.

(** What a labelled section contributes: its trimmed body, when that is
    longer than 20 code units. *)
Lemma parse_labelled lab body :
  is_label lab →
  parse_section (lab ++ body)
  = if decide (20 < length (trim body))%nat then [trim body] else [].
Proof.
  intros Hlab. unfold parse_section. rewrite trim_labelled by done.
  destruct (lab ++ trimEnd body) as [|a t] eqn:E.
  { apply app_eq_nil in E as [E _]. by apply label_nonempty in Hlab. }
  rewrite <- E. unfold stepMatch. rewrite (match_label_app _ _ Hlab).
  change (drop_while is_space (trimEnd body)) with (trimStart (trimEnd body)).
  rewrite <- trim_comm. fold (trim body).
  destruct (trim body) as [|b k] eqn:Et; [done|].
  rewrite <- Et, trim_idem.
  destruct (Nat.ltb_spec 20 (length (trim body))); case_decide; done || lia.
Qed.

(** Text in which no label starts contributes nothing. *)
Lemma parse_preamble pre : label_free pre → parse_section pre = [].
Proof.
  intros Hfree. unfold parse_section.
  destruct (trim pre) as [|a t] eqn:E; [done|]. unfold stepMatch.
  destruct (match_label (a :: t)) as [r|] eqn:Em; [exfalso|done].
  unfold trim, trimStart in E.
  destruct (trimEnd_prefix (drop_while is_space pre)) as [ws Hws].
  rewrite E, drop_while_drop in Hws.
  apply (match_label_extend _ _ ws) in Em. rewrite <- Hws in Em.
  rewrite no_label_spec in Hfree. by rewrite Hfree in Em.
Qed.

Lemma parse_section_list (sections : list (js_string * js_string)) :
  Forall section_ok sections →
  concat (map parse_section (map (λ p, p.1 ++ p.2) sections))
  = filter (λ b, (20 < length b)%nat) (map (λ p, trim p.2) sections).
Proof.
  induction 1 as [|[lab body] rest [Hlab _] _ IH]; [done|].
  simpl. rewrite filter_cons, (parse_labelled _ _ Hlab), IH.
  by case_decide.
Qed.

(** A text that is some label-free introduction followed by labelled
    sections parses to the trimmed bodies longer than 20 code units. *)
Lemma parse_sections pre (sections : list (js_string * js_string)) :
  label_free pre → Forall section_ok sections →
  parsePlanIntoSteps (pre ++ sections_text sections)
  = filter (λ b, (20 < length b)%nat) (map (λ p, trim p.2) sections).
Proof.
  intros Hpre Hok. rewrite <- parse_section_list by done.
  unfold parsePlanIntoSteps.
  pose proof (sections_text_head sections Hok) as Htail.
  destruct pre as [|c pre].
  - destruct sections as [|p rest]; [done|]. simpl app.
    rewrite split_sections by done. done.
  - unfold split_on_labels at 1.
    rewrite split_pieces_chunk; [|done| |done].
    + rewrite map_cons, parse_preamble by done. simpl concat.
      destruct sections as [|p rest]; [done|].
      rewrite <- split_sections by done.
      destruct (sections_text (p :: rest)) eqn:E; [|done].
      destruct p as [lab body]. rewrite sections_text_cons in E.
      apply app_eq_nil in E as [E _]. apply app_eq_nil in E as [E _].
      apply Forall_cons in Hok as [[Hlab _] _]. by apply label_nonempty in Hlab.
    + intros n Hn. apply no_straddle; [done|lia|done].
Qed.

(** Every text is an introduction in which no label starts followed by
labelled sections: labels cannot overlap. *)
Lemma decompose_text (n : nat) plan :
  (length plan ≤ n)%nat →
  ∃ pre sections,
    plan = pre ++ sections_text sections
    ∧ label_free pre ∧ Forall section_ok sections.
Proof.
  revert plan. induction n as [|n IH]; intros plan Hlen.
  { destruct plan; [|simpl in Hlen; lia]. by exists [], []. }
  destruct plan as [|c t]; [by exists [], []|].
  destruct (match_label (c :: t)) as [r|] eqn:E.
  - apply match_label_split in E as (lab & Hlab & Heq).
    pose proof (label_nonempty lab Hlab) as Hne.
    destruct (IH r) as (body & sections & -> & Hbody & Hok).
    { apply (f_equal length) in Heq. rewrite length_app in Heq. simpl in *.
      destruct lab; [done|]. simpl in Heq. lia. }
    exists [], ((lab, body) :: sections).
    rewrite sections_text_cons, Heq. split; [by list_assoc|].
    split; [done|]. by constructor.
  - destruct (IH t) as (pre & sections & -> & Hpre & Hok); [simpl in Hlen; lia|].
    exists (c :: pre), sections. split; [done|]. split; [|done].
    unfold label_free. rewrite no_label_cons.
    destruct (match_label (c :: pre)) as [r|] eqn:E'; [|done].
    apply (match_label_extend _ _ (sections_text sections)) in E'.
    rewrite <- app_comm_cons in E'. congruence.
Qed.
End Parse.

(** C2.  Every text is an introduction in which no label starts, followed
    by sections that each are a label (the word Step in any case, white
    space, digits, a colon) and a body in which no label starts; and such a
    text parses to the trimmed bodies, in order, of the sections whose
    trimmed body is longer than 20 code units.  In particular a text with the sections
    [Step 1:] A and [Step 2:] B, both bodies longer than 20 once trimmed,
    parses to the two trimmed bodies in that order; and a body of 20 code
    units is dropped while one of 21 is kept. *)
Theorem parsePlanIntoSteps_spec :
  (∀ pre sections,
     label_free pre → Forall section_ok sections →
     parsePlanIntoSteps (pre ++ sections_text sections)
     = filter (λ b, (20 < length b)%nat) (map (λ p, trim p.2) sections))
  ∧ (∀ plan, ∃ pre sections,
       plan = pre ++ sections_text sections
       ∧ label_free pre ∧ Forall section_ok sections)
  ∧ (∀ pre bodyA bodyB,
       label_free pre → label_free bodyA → label_free bodyB →
       (20 < length (trim bodyA))%nat → (20 < length (trim bodyB))%nat →
       parsePlanIntoSteps
         (pre ++ lit "Step 1:" ++ bodyA ++ lit "Step 2:" ++ bodyB)
       = [trim bodyA; trim bodyB])
  ∧ (∀ lab body,
       is_label lab → label_free body →
       (length (trim body) = 20%nat → parsePlanIntoSteps (lab ++ body) = [])
       ∧ (length (trim body) = 21%nat →
            parsePlanIntoSteps (lab ++ body) = [trim body])).
Proof.
  split; [exact parse_sections|].
  split; [intros plan; by apply (decompose_text (length plan))|]. split.
  - intros pre bodyA bodyB Hpre HA HB HlenA HlenB.
    pose proof (parse_sections pre [(lit "Step 1:", bodyA); (lit "Step 2:", bodyB)]
                  Hpre) as H.
    unfold sections_text in H. cbn [map concat fst snd] in H.
    rewrite app_nil_r, <- !app_assoc in H. rewrite H.
    + cbn [map fst snd]. rewrite !filter_cons, !decide_True by done. done.
    + repeat constructor; done.
  - intros lab body Hlab Hbody.
    pose proof (parse_sections [] [(lab, body)] eq_refl) as H.
    unfold sections_text in H. cbn [map concat fst snd] in H.
    rewrite app_nil_r, app_nil_l in H. cbn [map fst snd] in H.
    rewrite H by (repeat constructor; done).
    rewrite filter_cons. split; intros Hlen; rewrite Hlen.
    + by rewrite decide_False by lia.
    + by rewrite decide_True by lia.
Qed.

Lemma parsePlanIntoSteps_spec_witness :
  parsePlanIntoSteps (lit "Here is the plan.
Step 1: 12345678901234567890
step 2:   123456789012345678901
")
  = [lit "123456789012345678901"].
Proof.
  refine (proj1 parsePlanIntoSteps_spec (lit "Here is the plan.
")
            [(lit "Step 1:", lit " 12345678901234567890
");
             (lit "step 2:", lit "   123456789012345678901
")] _ _).
  - vm_compute. reflexivity.
  - repeat constructor; vm_compute; reflexivity.
Defined.

(** * Further properties *)

(** ** More on parsing *)

Lemma label_free_drop (s : js_string) n : label_free s → label_free (drop n s).
Proof.
  rewrite !no_label_spec. intros H m. rewrite drop_drop. apply H.
Qed.

Lemma label_free_prefix (a b : js_string) : label_free (a ++ b) → label_free a.
Proof.
  rewrite !no_label_spec. intros H n.
  destruct (match_label (drop n a)) as [r|] eqn:E; [|done].
  destruct (decide (n ≤ length a)%nat) as [Hn|Hn].
  - apply (match_label_extend _ _ b) in E. rewrite <- drop_app_le in E by done.
    by rewrite H in E.
  - rewrite drop_ge in E by lia. done.
Qed.

Lemma label_free_trim (s : js_string) : label_free s → label_free (trim s).
Proof.
  intros H. unfold trim, trimStart. rewrite drop_while_drop.
  destruct (trimEnd_prefix (drop (length (take_while is_space s)) s)) as [ws Hws].
  apply (label_free_prefix _ ws). rewrite <- Hws. by apply label_free_drop.
Qed.

Lemma sections_text_app (xs ys : list (js_string * js_string)) :
  sections_text (xs ++ ys) = sections_text xs ++ sections_text ys.
Proof. unfold sections_text. by rewrite map_app, concat_app. Qed.

(** X1.  A text in which no label starts, the empty text included, parses
    to no step at all, however long it is. *)
Theorem parse_without_labels (plan : js_string) :
  label_free plan → parsePlanIntoSteps plan = [].
Proof.
  intros H. pose proof (parse_sections plan [] H (Forall_nil_2 _)) as Hp.
  unfold sections_text in Hp. simpl concat in Hp. by rewrite app_nil_r in Hp.
Qed.

Lemma parse_without_labels_witness :
  parsePlanIntoSteps (lit "1. Install the dependencies. 2. Create the user model and step 3 wire it.")
  = [].
Proof. apply parse_without_labels. vm_compute. reflexivity. Defined.

(** X2.  Every step that the parser returns is trimmed, is longer than 20
    code units and holds no label. *)
Theorem parsed_steps_clean (plan step : js_string) :
  step ∈ parsePlanIntoSteps plan →
  trim step = step ∧ (20 < length step)%nat ∧ label_free step.
Proof.
  destruct (decompose_text (length plan) plan) as (pre & sections & -> & Hpre & Hok);
    [done|].
  rewrite parse_sections by done.
  intros [Hlen Hin]%list_elem_of_filter.
  apply list_elem_of_fmap in Hin as ([lab body] & -> & Hin).
  eapply Forall_forall in Hok as [_ Hbody]; [|exact Hin]. simpl in *.
  split; [apply trim_idem|]. split; [done|]. by apply label_free_trim.
Qed.

Lemma parsed_steps_clean_witness :
  let step := lit "Install the dependencies now." in
  trim step = step ∧ (20 < length step)%nat ∧ label_free step.
Proof.
  apply (parsed_steps_clean (lit "Intro.
Step 1:   Install the dependencies now.
Step 2: Too short")).
  apply (bool_decide_unpack _). vm_compute. reflexivity.
Defined.

(** X3.  Parsing distributes over appending a text that is empty or starts
    with a label: the steps of the whole are the steps of the first part
    followed by the steps of the second. *)
Theorem parse_append (a b : js_string) :
  b = [] ∨ is_Some (match_label b) →
  parsePlanIntoSteps (a ++ b) = parsePlanIntoSteps a ++ parsePlanIntoSteps b.
Proof.
  intros [->|Hb].
  { assert (parsePlanIntoSteps [] = []) as -> by (vm_compute; reflexivity).
    by rewrite !app_nil_r. }
  destruct (decompose_text (length a) a) as (pre & sa & -> & Hpre & Hsa); [done|].
  destruct (decompose_text (length b) b) as (preb & sb & -> & Hpreb & Hsb); [done|].
  assert (preb = []) as ->.
  { destruct preb as [|c preb]; [done|]. exfalso.
    pose proof (no_straddle (c :: preb) (sections_text sb) 0 Hpreb
                  ltac:(simpl; lia) (sections_text_head sb Hsb)) as Hnone.
    rewrite drop_0 in Hnone. rewrite Hnone in Hb. by destruct Hb. }
  rewrite app_nil_l, <- app_assoc, <- sections_text_app.
  rewrite parse_sections by (done || by apply Forall_app_2).
  rewrite (parse_sections pre sa), <- (app_nil_l (sections_text sb)) by done.
  rewrite (parse_sections [] sb) by done.
  by rewrite map_app, filter_app.
Qed.

Lemma parse_append_witness :
  parsePlanIntoSteps
    (lit "Step 1: Install the dependencies now. " ++ lit "Step 2: Wire the login route to JWT.")
  = parsePlanIntoSteps (lit "Step 1: Install the dependencies now. ")
    ++ parsePlanIntoSteps (lit "Step 2: Wire the login route to JWT.").
Proof. apply parse_append. right. vm_compute. eauto. Defined.

(** ** [cleanMarkdown] on text with little or no markup *)

Section Passes.
Implicit Types (c : code_unit) (s x y : js_string).

Lemma markup_free_spec c :
  markup_free c = true →
  c ≠ 42%N ∧ c ≠ 96%N ∧ c ≠ 35%N ∧ c ≠ 45%N ∧ c ≠ 10%N.
Proof.
  unfold markup_free. intros H. repeat split; intros ->; discriminate H.
Qed.

Lemma plain_app x y : plain x → plain y → plain (x ++ y).
Proof. apply Forall_app_2. Qed.

Lemma plain_lit (text : string) :
  forallb markup_free (lit text) = true → plain (lit text).
Proof. intros H. apply Forall_forall. intros c Hc%list_elem_of_In. revert c Hc. by apply forallb_forall. Qed.

Lemma strip_prefix_app p s : strip_prefix p (p ++ s) = Some s.
Proof. induction p as [|a p IH]; simpl; [done|]. by rewrite N.eqb_refl. Qed.

Lemma strip_prefix_other o os c s : o ≠ c → strip_prefix (o :: os) (c :: s) = None.
Proof. intros H. simpl. by apply N.eqb_neq in H as ->. Qed.

(** A pass whose opening delimiter starts with a character that the text
does not have leaves the text alone. *)
Lemma replace_delimited_absent o os closing before after s :
  Forall (λ c, c ≠ o) s →
  replace_delimited (o :: os) closing before after s = s.
Proof.
  unfold replace_delimited. induction 1 as [|c s Hc _ IH]; [done|].
  cbn [replace_delimited_from]. rewrite strip_prefix_other by done. by rewrite IH.
Qed.

Lemma replace_delimited_skip opening closing before after n s :
  (length s ≤ n)%nat →
  replace_delimited_from opening closing before after n s = [].
Proof.
  revert n. induction s as [|c s IH]; intros n Hn; [done|].
  destruct n as [|n]; simpl in Hn; [lia|]. cbn [replace_delimited_from].
  apply IH. lia.
Qed.

Lemma lazy_until_found c0 cs x rest :
  Forall (λ c, c ≠ c0 ∧ is_line_terminator c = false) x →
  lazy_until (c0 :: cs) (x ++ (c0 :: cs) ++ rest) = Some x.
Proof.
  induction 1 as [|c x [Hc Hlt] _ IH].
  - simpl app. cbn [lazy_until].
    change (c0 :: cs ++ rest) with ((c0 :: cs) ++ rest).
    by rewrite strip_prefix_app.
  - rewrite <- app_comm_cons. cbn [lazy_until].
    rewrite strip_prefix_other, Hlt, IH by done. done.
Qed.

(** One delimited run and nothing else. *)
Lemma replace_delimited_one o os c0 cs before after x :
  Forall (λ c, c ≠ c0 ∧ is_line_terminator c = false) x →
  replace_delimited (o :: os) (c0 :: cs) before after
    ((o :: os) ++ x ++ (c0 :: cs))
  = before ++ x ++ after.
Proof.
  intros Hx. unfold replace_delimited.
  rewrite <- app_comm_cons. cbn [replace_delimited_from].
  rewrite app_comm_cons, strip_prefix_app.
  rewrite <- (app_nil_r (c0 :: cs)) at 2.
  rewrite lazy_until_found by done.
  rewrite replace_delimited_skip; [by rewrite app_nil_r|].
  rewrite !length_app. simpl. lia.
Qed.

Lemma replace_bullets_absent b s :
  Forall (λ c, c ≠ 45%N) s → replace_bullets_from b s = s.
Proof.
  intros H. revert b. induction H as [|c s Hc _ IH]; intros b; [done|].
  cbn [replace_bullets_from]. destruct s as [|c' s]; [done|].
  apply N.eqb_neq in Hc. rewrite Hc, andb_false_r. simpl andb. cbv iota.
  by rewrite IH.
Qed.

Lemma match_heading_other c s : c ≠ 35%N → match_heading (c :: s) = None.
Proof.
  intros H. unfold match_heading. cbn [take_while].
  assert ((35 =? c)%N = false) as -> by (apply N.eqb_neq; congruence). done.
Qed.

Lemma strip_headings_absent s :
  Forall (λ c, c ≠ 35%N) s → strip_headings_from 0 s = s.
Proof.
  induction 1 as [|c s Hc _ IH]; [done|].
  cbn [strip_headings_from]. rewrite match_heading_other by done. by rewrite IH.
Qed.

Lemma strip_headings_skip a s :
  strip_headings_from (length a) (a ++ s) = strip_headings_from 0 s.
Proof. induction a as [|c a IH]; [done|]. simpl. exact IH. Qed.

Lemma replace_newlines_absent s :
  Forall (λ c, c ≠ 10%N) s → replace_newlines s = s.
Proof.
  unfold replace_newlines. induction 1 as [|c s Hc _ IH]; [done|].
  simpl. apply N.eqb_neq in Hc. rewrite Hc. simpl. by rewrite IH.
Qed.

Lemma replace_newlines_app x y :
  replace_newlines (x ++ y) = replace_newlines x ++ replace_newlines y.
Proof. unfold replace_newlines. apply flat_map_app. Qed.

Lemma plain_without x (k : N) :
  (k = 42 ∨ k = 96 ∨ k = 35 ∨ k = 45 ∨ k = 10)%N → plain x →
  Forall (λ c, c ≠ k) x.
Proof.
  intros Hk Hx. eapply Forall_impl; [exact Hx|]. intros c Hc%markup_free_spec.
  destruct Hk as [->|[->|[->|[->| ->]]]]; tauto.
Qed.

(** The passes after the three inline ones. *)
Lemma line_passes_plain x :
  plain x →
  replace_newlines (strip_headings_from 0 (replace_bullets_from true x)) = x.
Proof.
  intros H.
  rewrite replace_bullets_absent by (apply plain_without; auto).
  rewrite strip_headings_absent by (apply plain_without; auto).
  apply replace_newlines_absent, plain_without; auto.
Qed.
End Passes.

Section Markup.
Implicit Types (c : code_unit) (s x y : js_string).

Lemma bold_absent before after s :
  Forall (λ c, c ≠ 42%N) s →
  replace_delimited (lit "**") (lit "**") before after s = s.
Proof. apply (replace_delimited_absent 42%N [42%N]). Qed.

Lemma em_absent before after s :
  Forall (λ c, c ≠ 42%N) s →
  replace_delimited (lit "*") (lit "*") before after s = s.
Proof. apply (replace_delimited_absent 42%N []). Qed.

Lemma code_absent before after s :
  Forall (λ c, c ≠ 96%N) s →
  replace_delimited (lit "`") (lit "`") before after s = s.
Proof. apply (replace_delimited_absent 96%N []). Qed.

(** Single stars do not open a bold run. *)
Lemma bold_single_stars_tail before after y :
  Forall (λ c, c ≠ 42%N) y →
  replace_delimited_from (lit "**") (lit "**") before after 0 (y ++ [42%N])
  = y ++ [42%N].
Proof.
  induction 1 as [|c y Hc _ IH]; [done|].
  rewrite <- app_comm_cons. cbn [replace_delimited_from].
  change (lit "**") with [42%N; 42%N] in *.
  rewrite strip_prefix_other by congruence. by rewrite IH.
Qed.

Lemma bold_single_stars before after x :
  Forall (λ c, c ≠ 42%N) x →
  replace_delimited (lit "**") (lit "**") before after (lit "*" ++ x ++ lit "*")
  = lit "*" ++ x ++ lit "*".
Proof.
  intros Hx. unfold replace_delimited. destruct Hx as [|c x Hc Hx]; [done|].
  change (lit "*" ++ (c :: x) ++ lit "*") with (42%N :: c :: x ++ [42%N]).
  cbn [replace_delimited_from].
  assert (strip_prefix (lit "**") (42%N :: c :: x ++ [42%N]) = None) as ->.
  { change (lit "**") with [42%N; 42%N]. cbn [strip_prefix].
    rewrite N.eqb_refl. by destruct (N.eqb_spec 42 c). }
  f_equal. apply (bold_single_stars_tail before after (c :: x)). by constructor.
Qed.

Lemma inline_body x (k : N) :
  plain x → single_line x → (k = 42 ∨ k = 96)%N →
  Forall (λ c, c ≠ k ∧ is_line_terminator c = false) x.
Proof.
  intros Hp Hs Hk. apply Forall_and. split; [|done].
  apply plain_without; [|done]. destruct Hk; auto.
Qed.

Lemma single_line_check s :
  forallb (λ c, negb (is_line_terminator c)) s = true → single_line s.
Proof.
  intros H. apply Forall_forall. intros c Hc%list_elem_of_In.
  apply negb_true_iff. revert c Hc. by apply forallb_forall.
Qed.


(** X5.  Text without a star, a backquote, a hash, a dash or a line feed
    comes back from [cleanMarkdown] as it is. *)
Theorem cleanMarkdown_plain (text : js_string) :
  plain text → cleanMarkdown text = text.
Proof.
  intros H. unfold cleanMarkdown.
  rewrite bold_absent by (apply plain_without; auto).
  rewrite em_absent by (apply plain_without; auto).
  rewrite code_absent by (apply plain_without; auto).
  by apply line_passes_plain.
Qed.

Lemma cleanMarkdown_plain_witness :
  cleanMarkdown (lit "Use jose to sign tokens in src/auth.ts, then test.")
  = lit "Use jose to sign tokens in src/auth.ts, then test.".
Proof. apply cleanMarkdown_plain, plain_lit. vm_compute. reflexivity. Defined.

(** X6.  A run of plain text on one line between double stars, single stars
    or backquotes becomes that text between [strong], [em] or [code]
    tags. *)
Theorem cleanMarkdown_inline (x : js_string) :
  plain x → single_line x →
  cleanMarkdown (lit "**" ++ x ++ lit "**") = lit "<strong>" ++ x ++ lit "</strong>"
  ∧ cleanMarkdown (lit "*" ++ x ++ lit "*") = lit "<em>" ++ x ++ lit "</em>"
  ∧ cleanMarkdown (lit "`" ++ x ++ lit "`") = lit "<code>" ++ x ++ lit "</code>".
Proof.
  intros Hp Hs.
  assert (Htag : ∀ a b : string,
            forallb markup_free (lit a) = true →
            forallb markup_free (lit b) = true →
            plain (lit a ++ x ++ lit b)).
  { intros a b Ha Hb. repeat apply plain_app; by try apply plain_lit. }
  unfold cleanMarkdown. split; [|split].
  - rewrite (replace_delimited_one 42%N [42%N] 42%N [42%N])
      by (apply inline_body; auto).
    rewrite em_absent, code_absent by (apply plain_without; auto).
    by apply line_passes_plain, Htag.
  - rewrite bold_single_stars by (apply plain_without; auto).
    rewrite (replace_delimited_one 42%N [] 42%N []) by (apply inline_body; auto).
    rewrite code_absent by (apply plain_without; auto).
    by apply line_passes_plain, Htag.
  - assert (Hstar : Forall (λ c, c ≠ 42%N) (lit "`" ++ x ++ lit "`")).
    { repeat apply Forall_app_2; try (apply plain_without; by auto);
        by repeat constructor. }
    rewrite bold_absent, em_absent by done.
    rewrite (replace_delimited_one 96%N [] 96%N []) by (apply inline_body; auto).
    by apply line_passes_plain, Htag.
Qed.

Lemma cleanMarkdown_inline_witness :
  cleanMarkdown (lit "**JWT secret**") = lit "<strong>JWT secret</strong>".
Proof.
  refine (proj1 (cleanMarkdown_inline (lit "JWT secret") _ _)).
  - apply plain_lit. vm_compute. reflexivity.
  - apply single_line_check. vm_compute. reflexivity.
Defined.

Lemma take_while_hashes n s :
  match s with [] => True | c :: _ => c ≠ 35%N end →
  take_while (N.eqb 35) (replicate n 35%N ++ s) = replicate n 35%N.
Proof.
  intros Hs. induction n as [|n IH].
  - destruct s as [|c s]; [done|]. cbn [replicate app take_while].
    by destruct (N.eqb_spec 35 c) as [<-|].
  - cbn [replicate app take_while]. rewrite N.eqb_refl. by rewrite IH.
Qed.

(** X7.  At the start of the text, a dash and a space before plain text
    become a bullet and a space; one to six hashes and a space before plain
    text disappear; and a line feed between two plain texts becomes
    [<br>]. *)
Theorem cleanMarkdown_lines (x y : js_string) :
  plain x → plain y →
  cleanMarkdown (lit "- " ++ x) = [8226%N; 32%N] ++ x
  ∧ (∀ n, (1 ≤ n ≤ 6)%nat →
       cleanMarkdown (replicate n 35%N ++ [32%N] ++ x) = x)
  ∧ cleanMarkdown (x ++ [10%N] ++ y) = x ++ lit "<br>" ++ y.
Proof.
  intros Hx Hy. unfold cleanMarkdown. split; [|split].
  - assert (H42 : Forall (λ c, c ≠ 42%N) (lit "- " ++ x)).
    { apply Forall_app_2; [by repeat constructor|apply plain_without; auto]. }
    assert (H96 : Forall (λ c, c ≠ 96%N) (lit "- " ++ x)).
    { apply Forall_app_2; [by repeat constructor|apply plain_without; auto]. }
    rewrite bold_absent, em_absent, code_absent by done.
    change (lit "- " ++ x) with (45%N :: 32%N :: x).
    cbn [replace_bullets_from]. simpl andb. cbv iota.
    rewrite replace_bullets_absent by (apply plain_without; auto).
    rewrite strip_headings_absent
      by (repeat constructor; try done; apply plain_without; auto).
    apply replace_newlines_absent.
    repeat constructor; try done. apply plain_without; auto.
  - intros n Hn.
    assert (Hall : ∀ k : N, k ≠ 35%N → k ≠ 32%N → (k = 42 ∨ k = 96 ∨ k = 45 ∨ k = 10)%N →
              Forall (λ c, c ≠ k) (replicate n 35%N ++ [32%N] ++ x)).
    { intros k H35 H32 Hk. repeat apply Forall_app_2.
      - apply Forall_replicate. congruence.
      - repeat constructor. congruence.
      - apply plain_without; [|done]. destruct Hk as [->|[->|[->| ->]]]; auto. }
    rewrite bold_absent, em_absent, code_absent by (apply Hall; auto).
    rewrite replace_bullets_absent by (apply Hall; auto).
    destruct n as [|n]; [lia|].
    change (replicate (S n) 35%N ++ [32%N] ++ x)
      with (35%N :: replicate n 35%N ++ 32%N :: x).
    cbn [strip_headings_from].
    assert (match_heading (35%N :: replicate n 35%N ++ 32%N :: x) = Some (S (S n)))
      as ->.
    { unfold match_heading.
      change (35%N :: replicate n 35%N ++ 32%N :: x)
        with (replicate (S n) 35%N ++ 32%N :: x).
      rewrite take_while_hashes by done.
      rewrite length_replicate, Nat.min_l by lia.
      rewrite <- (length_replicate (S n) 35%N) at 1.
      by rewrite drop_app_length. }
    replace (S (S n) - 1)%nat with (length (replicate n 35%N ++ [32%N]))
      by (rewrite length_app, length_replicate; simpl; lia).
    replace (replicate n 35%N ++ 32%N :: x) with ((replicate n 35%N ++ [32%N]) ++ x)
      by (by rewrite <- app_assoc).
    rewrite strip_headings_skip.
    rewrite strip_headings_absent by (apply plain_without; auto).
    apply replace_newlines_absent, plain_without; auto.
  - assert (Hall : ∀ k : N, k ≠ 10%N → (k = 42 ∨ k = 96 ∨ k = 35 ∨ k = 45)%N →
              Forall (λ c, c ≠ k) (x ++ [10%N] ++ y)).
    { intros k H10 Hk. repeat apply Forall_app_2.
      - apply plain_without; [|done]. destruct Hk as [->|[->|[->| ->]]]; auto.
      - repeat constructor. congruence.
      - apply plain_without; [|done]. destruct Hk as [->|[->|[->| ->]]]; auto. }
    rewrite bold_absent, em_absent, code_absent by (apply Hall; auto).
    rewrite replace_bullets_absent by (apply Hall; auto).
    rewrite strip_headings_absent by (apply Hall; auto).
    rewrite !replace_newlines_app.
    rewrite (replace_newlines_absent x), (replace_newlines_absent y)
      by (apply plain_without; auto).
    done.
Qed.

Lemma cleanMarkdown_lines_witness :
  cleanMarkdown (lit "- " ++ lit "run npm install") = [8226%N; 32%N] ++ lit "run npm install".
Proof.
  refine (proj1 (cleanMarkdown_lines (lit "run npm install") [] _ _)).
  - apply plain_lit. vm_compute. reflexivity.
  - constructor.
Defined.
End Markup.

(** ** The controller over whole sessions *)

Lemma originalIndex_alter (f : PlanStep → PlanStep) (a : loc)
    (objs : gmap loc PlanStep) l :
  (∀ s, originalIndex (f s) = originalIndex s) →
  originalIndex <$> alter f a objs !! l = originalIndex <$> objs !! l.
Proof.
  intros Hf. destruct (decide (a = l)) as [->|Hne].
  - rewrite lookup_alter_eq. destruct (objs !! l); simpl; [by rewrite Hf|done].
  - by rewrite lookup_alter_ne.
Qed.

Lemma in_place_keeps_indices e c :
  in_place e →
  ∀ l, originalIndex <$> objects (step e c).1 !! l = originalIndex <$> objects c !! l.
Proof.
  intros He. destruct e as [env m|k openai t]; simpl.
  - unfold onDidReceiveMessage.
    destruct m as [i|i|i text| | | | |]; try done; simpl.
    + destruct (find_step _ _ i) as [found|]; simpl; [|done].
      intros l. by apply originalIndex_alter.
    + destruct (find_step _ _ i) as [found|]; simpl; [|done].
      intros l. by apply originalIndex_alter.
    + destruct (find_step _ _ i) as [found|]; simpl; [|done].
      case_decide; simpl; [done|]. intros l. by apply originalIndex_alter.
  - destruct (inflight c !! k) as [call|]; simpl; [|done].
    unfold refine_continuation. destruct (refineStep _ _ _ _ _ _); simpl; [|done].
    intros l. by apply originalIndex_alter.
Qed.

Lemma event_kinds e :
  structural e ∨ in_place e
  ∨ (∃ env, e = Receive env savePlan)
  ∨ (∃ env text, e = Receive env (sendToCopilotChat text)).
Proof.
  destruct e as [env m|]; [|by right; left].
  destruct m; simpl; eauto 8.
Qed.

Lemma step_indices_fresh e c :
  reorder_distinct e → well_formed c → indices_fresh c →
  indices_fresh (step e c).1.
Proof.
  intros Hd Hwf Hfresh.
  destruct (event_kinds e) as [Hs|[Hp|[[env ->]|(env & text & ->)]]]; [| |done..].
  - by apply structural_step_fresh.
  - destruct (in_place_keeps_ids e c Hp) as [Hsteps _].
    intros k l Hk. rewrite Hsteps in Hk.
    rewrite in_place_keeps_indices by done. by apply Hfresh.
Qed.

(** X8.  From the moment a plan is created, whatever the webview sends and
    whenever refinements settle, as long as no reorder message names an
    identifier twice: after every event the plan lists distinct live step
    objects and the step at position [k] has display index [k + 1]. *)
Theorem session_invariant (task context : js_string) (t : Z)
    (raw : list (js_string * js_string)) (events : list Event) :
  Forall reorder_distinct events →
  Forall (λ c, well_formed c ∧ indices_fresh c)
    (trace events (createPlan task context t raw)).
Proof.
  pose proof (createPlan_well_formed task context t raw) as Hwf.
  pose proof (createPlan_indices_fresh task context t raw) as Hfresh.
  revert Hwf Hfresh. generalize (createPlan task context t raw).
  induction events as [|e events IH]; intros c Hwf Hfresh Hd; simpl; [constructor|].
  apply Forall_cons in Hd as [Hd Hds].
  assert (well_formed (step e c).1) by by apply step_well_formed.
  assert (indices_fresh (step e c).1) by by apply step_indices_fresh.
  constructor; [done|]. by apply IH.
Qed.

Lemma session_invariant_witness :
  Forall (λ c, well_formed c ∧ indices_fresh c)
    (trace [Receive {| now := 2000; uuid := lit "u" |} (rejectStep (lit "b"));
            Receive {| now := 3000; uuid := lit "v" |}
              (reorderSteps [lit "c"; lit "b"]);
            RefineSettles 0 (λ _, Throw (ErrorObject (lit "offline"))) 4000;
            Receive {| now := 5000; uuid := lit "w" |}
              (addStep None (lit "New plan step."))]
       demo).
Proof.
  apply session_invariant.
  apply Forall_cons_2; [exact I|]. apply Forall_cons_2.
  { apply (bool_decide_unpack _). vm_compute. reflexivity. }
  repeat (apply Forall_cons_2; [exact I|]). apply Forall_nil_2.
Defined.

Lemma step_keeps_task e c :
  taskDescription (planState (step e c).1) = taskDescription (planState c)
  ∧ projectContext (step e c).1 = projectContext c.
Proof.
  destruct e as [env m|k openai t]; simpl.
  - unfold onDidReceiveMessage.
    destruct m as [i|i|i text|newOrder|i|afterId text| |text]; simpl; try done.
    + by destruct (find_step _ _ i).
    + by destruct (find_step _ _ i).
    + destruct (find_step _ _ i); [|done]. by case_decide.
  - destruct (inflight c !! k) as [call|]; simpl; [|done].
    unfold refine_continuation. by destruct (refineStep _ _ _ _ _ _).
Qed.

(** X9.  No event ever changes the task description or the project
    context: after every event of a session they are what they were at the
    start. *)
Theorem task_never_changes (events : list Event) (c : Controller) :
  Forall (λ c', taskDescription (planState c') = taskDescription (planState c)
                ∧ projectContext c' = projectContext c)
    (trace events c).
Proof.
  assert (∀ c0, taskDescription (planState c0) = taskDescription (planState c)
                ∧ projectContext c0 = projectContext c →
          Forall (λ c', taskDescription (planState c') = taskDescription (planState c)
                        ∧ projectContext c' = projectContext c)
            (trace events c0)) as H; [|by apply H].
  induction events as [|e events IH]; intros c0 [H1 H2]; simpl; [constructor|].
  destruct (step_keeps_task e c0) as [H3 H4].
  assert (taskDescription (planState (step e c0).1) = taskDescription (planState c)
          ∧ projectContext (step e c0).1 = projectContext c) by (split; congruence).
  constructor; [done|]. by apply IH.
Qed.

(** X10.  A refinement that settles when its step is no longer in the plan
    (it was deleted or left out of a reorder meanwhile) changes no step of
    the plan; it still refreshes [lastModified] and posts the state. *)
Theorem refinement_of_removed_step (c : Controller) (k : nat) (call : PendingRefine)
    (openai : OpenAI) (t : Z) :
  inflight c !! k = Some call →
  target call ∉ steps (planState c) →
  let r := step (RefineSettles k openai t) c in
  steps (planState r.1) = steps (planState c)
  ∧ snap_steps (snapshot r.1) = snap_steps (snapshot c)
  ∧ lastModified (planState r.1) = t
  ∧ r.2 = [post_stateUpdated (snapshot r.1)].
Proof.
  intros Hk Hgone. simpl. rewrite Hk. unfold refine_continuation.
  destruct (refineStep_returns openai (arg_originalStep call) (arg_allSteps call)
              (arg_stepIndex call) (arg_taskContext call) (arg_projectContext call))
    as [text ->].
  simpl. repeat split. apply omap_ext_in. intros l Hl.
  rewrite lookup_alter_ne; [done|]. intros Heq. apply Hgone. by rewrite Heq.
Qed.

Lemma refinement_of_removed_step_witness :
  let c := (run [Receive {| now := 2000; uuid := lit "u" |} (rejectStep (lit "b"));
                 Receive {| now := 3000; uuid := lit "v" |} (deleteStep (lit "b"))]
              demo).1 in
  snap_steps (snapshot (step (RefineSettles 0 (λ _, Throw (ErrorObject (lit "offline")))
                                4000) c).1)
  = snap_steps (snapshot c).
Proof.
  refine (proj1 (proj2 (refinement_of_removed_step _ 0
                          {| target := 1%nat;
                             arg_originalStep := lit "Create the user model.";
                             arg_allSteps := [lit "Install the dependencies.";
                                              lit "Create the user model.";
                                              lit "Wire the login route."];
                             arg_stepIndex := 1;
                             arg_taskContext := lit "Add JWT auth";
                             arg_projectContext := lit "Project: demo" |}
                          _ 4000 _ _))).
  - vm_compute. reflexivity.
  - apply (bool_decide_unpack _). vm_compute. reflexivity.
Defined.

(** ** More on single intents *)

Lemma update_indices_last n (ss : list loc) (objs : gmap loc PlanStep) k l :
  ss !! k = Some l → (∀ j, (k < j)%nat → ss !! j ≠ Some l) →
  originalIndex <$> updateStepIndices_from n ss objs !! l
  = (λ _, Z.of_nat (n + k) + 1) <$> objs !! l.
Proof.
  revert n objs k. induction ss as [|a ss IH]; intros n objs k Hk Hlast; [done|].
  destruct k as [|k]; simpl in *.
  - injection Hk as ->. rewrite update_indices_notin.
    + rewrite lookup_alter_eq, Nat.add_0_r. by destruct (objs !! l).
    + intros (j & Hj)%list_elem_of_lookup_1. by apply (Hlast (S j)); [lia|].
  - rewrite (IH _ _ k); [|done|].
    + replace (S n + k)%nat with (n + S k)%nat by lia.
      destruct (decide (a = l)) as [->|Hne].
      * rewrite lookup_alter_eq. by destruct (objs !! l).
      * by rewrite lookup_alter_ne.
    + intros j Hj. apply (Hlast (S j)). lia.
Qed.

(** X11.  [updateStepIndices] gives every object of the list the index of
    its last position plus one, also when an object is listed more than
    once, and leaves every object that is not listed alone. *)
Theorem updateStepIndices_last_position (ss : list loc) (objs : gmap loc PlanStep)
    (l : loc) :
  (∀ k, ss !! k = Some l → (∀ j, (k < j)%nat → ss !! j ≠ Some l) →
     originalIndex <$> updateStepIndices ss objs !! l
     = (λ _, Z.of_nat k + 1) <$> objs !! l)
  ∧ (l ∉ ss → updateStepIndices ss objs !! l = objs !! l).
Proof.
  split.
  - intros k Hk Hlast. unfold updateStepIndices.
    by rewrite (update_indices_last 0 ss objs k l).
  - apply update_indices_notin.
Qed.

Lemma updateStepIndices_last_position_witness :
  originalIndex <$> updateStepIndices [0; 2; 0; 1]%nat (objects demo) !! 0%nat
  = Some 3.
Proof.
  refine (proj1 (updateStepIndices_last_position [0; 2; 0; 1]%nat (objects demo) 0%nat)
            2%nat _ _).
  - reflexivity.
  - intros [|[|[|[|j]]]] Hj; try lia; vm_compute; discriminate.
Defined.

Lemma find_step_ext (objs objs' : gmap loc PlanStep) (ss : list loc) (i : js_string) :
  (∀ l, id <$> objs' !! l = id <$> objs !! l) →
  find_step objs' ss i = find_step objs ss i.
Proof.
  intros Hid. unfold find_step. f_equal. apply list_find_ext.
  intros l. unfold has_id. by rewrite Hid.
Qed.

(** X12.  [acceptStep] has no guard like the one of [editStep]: on a step
    that is already accepted it changes no step object and not the list, and
    it still refreshes [lastModified] and posts the state. *)
Theorem accept_again (c : Controller) (env env' : Env) (i : js_string) :
  i ∈ step_ids c →
  let c1 := (onDidReceiveMessage env (acceptStep i) c).1 in
  let r := onDidReceiveMessage env' (acceptStep i) c1 in
  objects r.1 = objects c1
  ∧ steps (planState r.1) = steps (planState c1)
  ∧ lastModified (planState r.1) = now env'
  ∧ r.2 = [post_stateUpdated (snapshot r.1)].
Proof.
  intros [l Hl]%find_step_is_Some. unfold onDidReceiveMessage. simpl.
  rewrite Hl. simpl.
  rewrite (find_step_ext (objects c)) by (intros l'; by apply id_alter).
  rewrite Hl. simpl. repeat split.
  apply map_eq. intros l'. destruct (decide (l = l')) as [->|Hne].
  - rewrite !lookup_alter_eq. by destruct (objects c !! l').
  - by rewrite !lookup_alter_ne.
Qed.

Lemma accept_again_witness :
  let c1 := (onDidReceiveMessage {| now := 2000; uuid := lit "u" |}
               (acceptStep (lit "a")) demo).1 in
  let r := onDidReceiveMessage {| now := 3000; uuid := lit "v" |}
             (acceptStep (lit "a")) c1 in
  objects r.1 = objects c1 ∧ r.2 = [post_stateUpdated (snapshot r.1)].
Proof.
  destruct (accept_again demo {| now := 2000; uuid := lit "u" |}
              {| now := 3000; uuid := lit "v" |} (lit "a")) as (H1 & _ & _ & H4).
  - apply (bool_decide_unpack _). vm_compute. reflexivity.
  - split; [exact H1|exact H4].
Defined.

(** X13.  [validateStepOperation] says yes exactly for the identifiers of
    the plan, which are exactly the identifiers on which [acceptStep]
    acts. *)
Theorem validateStepOperation_spec (c : Controller) (env : Env) (i : js_string) :
  (validateStepOperation (objects c) i (steps (planState c)) = true
   ↔ i ∈ step_ids c)
  ∧ (validateStepOperation (objects c) i (steps (planState c)) = true
     ↔ (dispatch env (acceptStep i) c).1.2 = true).
Proof.
  assert (Hv : validateStepOperation (objects c) i (steps (planState c)) = true
               ↔ i ∈ step_ids c).
  { unfold validateStepOperation. rewrite elem_of_step_ids, existsb_exists.
    split.
    - intros (l & Hl%list_elem_of_In & Hid%bool_decide_eq_true). eauto.
    - intros (l & Hl%list_elem_of_In & Hid). exists l.
      by rewrite bool_decide_eq_true. }
  split; [done|]. rewrite Hv, <- find_step_is_Some. simpl.
  destruct (find_step _ _ i); simpl; split; try done.
Qed.

(** ** Intents that undo or repeat each other *)

Lemma step_object_ext (a b : option PlanStep) :
  id <$> a = id <$> b → content <$> a = content <$> b →
  status <$> a = status <$> b → originalIndex <$> a = originalIndex <$> b →
  a = b.
Proof.
  destruct a as [[]|], b as [[]|]; simpl; try done.
  intros [= ->] [= ->] [= ->] [= ->]. done.
Qed.

Lemma handler_steps_dispatch env afterId text c :
  steps (planState (onDidReceiveMessage env (addStep afterId text) c).1)
  = steps (planState (dispatch env (addStep afterId text) c).1.1).
Proof. reflexivity. Qed.

Lemma deleteStep_steps env i c :
  steps (planState (onDidReceiveMessage env (deleteStep i) c).1)
  = filter (λ l, ¬ has_id (objects c) i l) (steps (planState c)).
Proof. reflexivity. Qed.

Lemma deleteStep_objects env i c :
  objects (onDidReceiveMessage env (deleteStep i) c).1
  = updateStepIndices
      (steps (planState (onDidReceiveMessage env (deleteStep i) c).1)) (objects c).
Proof. reflexivity. Qed.

(** X14.  Adding a step and then deleting the identifier it was given, in
    a well-formed plan with fresh display indices that does not have that
    identifier yet, gives back the list of steps and every step of the plan
    as it was. *)
Theorem add_then_delete (c : Controller) (env env' : Env)
    (afterId : option js_string) (text : js_string) :
  well_formed c → indices_fresh c → uuid env ∉ step_ids c →
  let c1 := (onDidReceiveMessage env (addStep afterId text) c).1 in
  let c2 := (onDidReceiveMessage env' (deleteStep (uuid env)) c1).1 in
  steps (planState c2) = steps (planState c)
  ∧ snap_steps (snapshot c2) = snap_steps (snapshot c).
Proof.
  intros [Hnd Hlive] Hfresh Hnew c1 c2.
  pose proof (fresh_not_listed c Hlive) as Hnotin.
  destruct (addStep_steps env afterId text c) as [n Hn].
  rewrite <- handler_steps_dispatch in Hn. fold c1 in Hn.
  pose proof (addStep_objects env afterId text c) as Hobj. fold c1 in Hobj.
  set (new := fresh (dom (objects c))) in *.
  set (objs' := <[new := _]> (objects c)) in Hobj.
  assert (Hid1 : ∀ l, id <$> objects c1 !! l = id <$> objs' !! l).
  { intros l. rewrite Hobj. apply update_indices_id. }
  assert (Hold : ∀ l, l ∈ steps (planState c) → ¬ has_id (objects c1) (uuid env) l).
  { intros l Hl. unfold has_id. rewrite Hid1. unfold objs'.
    rewrite lookup_insert_ne by (by intros <-).
    intros Hid. apply Hnew, elem_of_step_ids. eauto. }
  assert (Hsteps : steps (planState c2) = steps (planState c)).
  { subst c2. rewrite deleteStep_steps, Hn, filter_app, filter_cons.
    rewrite decide_False.
    - rewrite !filter_all.
      + apply take_drop.
      + apply Forall_forall. intros l Hl. by apply Hold, (subseteq_drop n).
      + apply Forall_forall. intros l Hl. by apply Hold, (subseteq_take n).
    - intros H. apply H. unfold has_id. rewrite Hid1. unfold objs'.
      by rewrite lookup_insert_eq. }
  split; [done|]. unfold snapshot. cbn [snap_steps]. rewrite Hsteps.
  apply omap_ext_in. intros l Hl.
  assert (Hobj2 : objects c2
                  = updateStepIndices (steps (planState c)) (objects c1)).
  { rewrite <- Hsteps. subst c2. apply deleteStep_objects. }
  assert (Hne : l ≠ new) by (by intros ->).
  apply list_elem_of_lookup_1 in Hl as Hk. destruct Hk as [k Hk].
  apply step_object_ext; rewrite Hobj2; unfold updateStepIndices.
  - rewrite update_indices_id, Hid1. unfold objs'. by rewrite lookup_insert_ne.
  - rewrite update_indices_content, Hobj. unfold updateStepIndices.
    rewrite update_indices_content. unfold objs'. by rewrite lookup_insert_ne.
  - rewrite update_indices_status, Hobj. unfold updateStepIndices.
    rewrite update_indices_status. unfold objs'. by rewrite lookup_insert_ne.
  - rewrite (Hfresh k l Hk). fold (updateStepIndices (steps (planState c)) (objects c1)). apply indices_after_update; [done| |done].
    intros l' Hl'. rewrite Hobj. apply update_indices_is_Some. unfold objs'.
    rewrite lookup_insert_ne by (by intros <-). by apply Hlive.
Qed.

Lemma add_then_delete_witness :
  let c1 := (onDidReceiveMessage {| now := 2000; uuid := lit "u" |}
               (addStep (Some (lit "a")) (lit "New plan step.")) demo).1 in
  let c2 := (onDidReceiveMessage {| now := 3000; uuid := lit "v" |}
               (deleteStep (lit "u")) c1).1 in
  snap_steps (snapshot c2) = snap_steps (snapshot demo).
Proof.
  refine (proj2 (add_then_delete demo {| now := 2000; uuid := lit "u" |}
                   {| now := 3000; uuid := lit "v" |} (Some (lit "a"))
                   (lit "New plan step.") _ _ _)).
  - apply createPlan_well_formed.
  - apply createPlan_indices_fresh.
  - apply (bool_decide_unpack _). vm_compute. reflexivity.
Defined.

(** X15.  Deleting the same identifier a second time changes neither the
    list of steps nor any step object of a well-formed plan. *)
Theorem delete_again (c : Controller) (env env' : Env) (i : js_string) :
  well_formed c →
  let c1 := (onDidReceiveMessage env (deleteStep i) c).1 in
  let c2 := (onDidReceiveMessage env' (deleteStep i) c1).1 in
  steps (planState c2) = steps (planState c1) ∧ objects c2 = objects c1.
Proof.
  intros Hwf c1 c2.
  pose proof (step_well_formed (Receive env (deleteStep i)) c I Hwf) as Hwf1.
  pose proof (structural_step_fresh (Receive env (deleteStep i)) c I I Hwf) as Hfresh1.
  change (step (Receive env (deleteStep i)) c).1 with c1 in *.
  assert (Hkeep : filter (λ l, ¬ has_id (objects c1) i l) (steps (planState c1))
                  = steps (planState c1)).
  { apply filter_all, Forall_forall. intros l Hl.
    subst c1. rewrite deleteStep_steps in Hl. rewrite deleteStep_objects.
    apply list_elem_of_filter in Hl as [Hl _].
    unfold has_id in *. unfold updateStepIndices. by rewrite update_indices_id. }
  assert (Hsteps : steps (planState c2) = steps (planState c1)).
  { subst c2. by rewrite deleteStep_steps. }
  split; [done|]. subst c2. rewrite deleteStep_objects, deleteStep_steps, Hkeep.
  apply update_indices_fresh. intros k l Hk. by apply Hfresh1.
Qed.

Lemma delete_again_witness :
  let c1 := (onDidReceiveMessage {| now := 2000; uuid := lit "u" |}
               (deleteStep (lit "b")) demo).1 in
  let c2 := (onDidReceiveMessage {| now := 3000; uuid := lit "v" |}
               (deleteStep (lit "b")) c1).1 in
  steps (planState c2) = steps (planState c1) ∧ objects c2 = objects c1.
Proof. apply delete_again, createPlan_well_formed. Defined.

(** ** Reordering by a permutation *)

Lemma omap_Forall2 {A B} (f : A → option B) (xs : list A) :
  (∀ x, x ∈ xs → is_Some (f x)) →
  Forall2 (λ x y, f x = Some y) xs (omap f xs).
Proof.
  induction xs as [|x xs IH]; intros H; [constructor|].
  destruct (H x) as [y Hy]; [left|]. simpl. rewrite Hy.
  constructor; [done|]. apply IH. intros x' Hx'. apply H. by right.
Qed.

(** The mirror of a live plan holds the values of its objects, position by
position. *)
Lemma snapshot_Forall2 (c : Controller) :
  steps_live c →
  Forall2 (λ l s, objects c !! l = Some s)
    (steps (planState c)) (snap_steps (snapshot c)).
Proof. intros H. by apply omap_Forall2. Qed.

(** Looking up the identifiers of a list of values of objects of the plan
gives back the objects. *)
Lemma reorder_from_mirror (c : Controller) (ls : list loc) (ms : list PlanStep) :
  NoDup (step_ids c) →
  Forall2 (λ l s, objects c !! l = Some s) ls ms →
  (∀ l, l ∈ ls → l ∈ steps (planState c)) →
  omap (find_step (objects c) (steps (planState c))) (id <$> ms) = ls.
Proof.
  intros Hnd H. induction H as [|l s ls ms Hl _ IH]; intros Hin; [done|].
  cbn [fmap list_fmap omap list_omap].
  rewrite (unique_ids_find c (id s) l Hnd).
  - f_equal. apply IH. intros l' Hl'. apply Hin. by right.
  - apply Hin. left.
  - unfold has_id. by rewrite Hl.
Qed.

Lemma reorderSteps_steps env newOrder c :
  steps (planState (onDidReceiveMessage env (reorderSteps newOrder) c).1)
  = omap (find_step (objects c) (steps (planState c))) newOrder.
Proof. reflexivity. Qed.

Lemma reorderSteps_objects env newOrder c :
  objects (onDidReceiveMessage env (reorderSteps newOrder) c).1
  = updateStepIndices
      (steps (planState (onDidReceiveMessage env (reorderSteps newOrder) c).1))
      (objects c).
Proof. reflexivity. Qed.

Lemma reorder_fresh env newOrder c :
  NoDup newOrder →
  indices_fresh (onDidReceiveMessage env (reorderSteps newOrder) c).1.
Proof.
  intros Hnew. eapply indices_fresh_of_update; [apply reorderSteps_objects|].
  split.
  - rewrite reorderSteps_steps. by apply reorder_NoDup.
  - intros l Hl. rewrite reorderSteps_steps in Hl. rewrite reorderSteps_objects.
    apply update_indices_is_Some. by apply reorder_found in Hl as [_ ?].
Qed.

(** X16.  A reorder message that is a permutation of the identifiers of a
    plan with distinct identifiers loses no step and adds none: the new list
    is a permutation of the old one, its identifiers are the message, and
    the display indices are fresh.  When the message is the current order,
    the list is the same, and so is every step object if the indices were
    fresh. *)
Theorem reorder_permutation (c : Controller) (env : Env) (newOrder : list js_string) :
  NoDup (step_ids c) → steps_live c → newOrder ≡ₚ step_ids c →
  let c' := (onDidReceiveMessage env (reorderSteps newOrder) c).1 in
  steps (planState c') ≡ₚ steps (planState c)
  ∧ step_ids c' = newOrder
  ∧ indices_fresh c'
  ∧ (newOrder = step_ids c →
     steps (planState c') = steps (planState c)
     ∧ (indices_fresh c → objects c' = objects c)).
Proof.
  intros Hnd Hlive Hperm c'.
  assert (Hsame : omap (find_step (objects c) (steps (planState c))) (step_ids c)
                  = steps (planState c)).
  { apply reorder_from_mirror; [done| |done]. by apply snapshot_Forall2. }
  split; [|split; [|split]].
  - subst c'. rewrite reorderSteps_steps, Hperm. by rewrite Hsame.
  - rewrite step_ids_omap. subst c'.
    rewrite reorderSteps_steps.
    rewrite (reorder_ids (objects c) (steps (planState c)) _ (λ i, i ∈ step_ids c)).
    + apply filter_all, Forall_forall. intros i Hi. by rewrite <- Hperm.
    + intros i. symmetry. apply find_step_is_Some.
    + intros l. rewrite reorderSteps_objects. apply update_indices_id.
  - apply reorder_fresh. by rewrite Hperm.
  - intros ->.
    assert (Hs : steps (planState c') = steps (planState c)).
    { subst c'. by rewrite reorderSteps_steps. }
    split; [done|]. intros Hfresh. subst c'.
    rewrite reorderSteps_objects, Hs. apply update_indices_fresh.
    intros k l Hk. by apply Hfresh.
Qed.

Lemma reorder_permutation_witness :
  let c' := (onDidReceiveMessage {| now := 2000; uuid := lit "u" |}
               (reorderSteps [lit "b"; lit "c"; lit "a"]) demo).1 in
  steps (planState c') ≡ₚ steps (planState demo).
Proof.
  refine (proj1 (reorder_permutation demo {| now := 2000; uuid := lit "u" |}
                   [lit "b"; lit "c"; lit "a"] _ _ _)).
  - apply (bool_decide_unpack _). vm_compute. reflexivity.
  - apply createPlan_well_formed.
  - change (step_ids demo) with [lit "a"; lit "b"; lit "c"].
    apply (bool_decide_unpack _). vm_compute. reflexivity.
Defined.

(** ** The webview's mirror *)

Lemma step_sync e c :
  foldl webview_receive (snapshot c) (step e c).2 = snapshot (step e c).1.
Proof.
  destruct e as [env m|k openai t]; simpl.
  - unfold onDidReceiveMessage.
    destruct m as [i|i|i text|newOrder|i|afterId text| |text]; simpl; try done.
    + by destruct (find_step _ _ i).
    + by destruct (find_step _ _ i).
    + destruct (find_step _ _ i); [|done]. by case_decide.
  - destruct (inflight c !! k) as [call|]; simpl; [|done].
    unfold refine_continuation.
    destruct (refineStep_returns openai (arg_originalStep call) (arg_allSteps call)
                (arg_stepIndex call) (arg_taskContext call) (arg_projectContext call))
      as [text ->].
    done.
Qed.

(** X17.  The webview's mirror never falls behind: starting in step with
    the controller, after the webview has received everything that a session
    sent, its mirror is the controller's current state. *)
Theorem mirror_in_sync (events : list Event) (c : Controller) :
  foldl webview_receive (snapshot c) (run events c).2 = snapshot (run events c).1.
Proof.
  revert c. induction events as [|e events IH]; intros c; [done|].
  simpl. destruct (step e c) as [c' sent] eqn:E.
  specialize (IH c'). destruct (run events c') as [c'' sent'].
  simpl in *. rewrite foldl_app.
  pose proof (step_sync e c) as Hs. rewrite E in Hs. simpl in Hs.
  by rewrite Hs.
Qed.

(** ** The webview's reorder gestures, applied by the controller *)

Section Swap.
Context {A : Type}.
Implicit Types (xs : list A).





Lemma fmap_swap {B} (f : A → B) j k xs : f <$> swap j k xs = swap j k (f <$> xs).
Proof.
  unfold swap. rewrite !list_lookup_fmap.
  destruct (xs !! j), (xs !! k); simpl; try done.
  by rewrite !list_fmap_insert.
Qed.

End Swap.

(** What a reorder message built from a rearranged mirror does: the plan
becomes the same rearrangement of its objects. *)
Lemma reorder_rearranged (c : Controller) (env : Env) (ls : list loc)
    (ms : list PlanStep) :
  NoDup (step_ids c) →
  Forall2 (λ l s, objects c !! l = Some s) ls ms →
  ls ≡ₚ steps (planState c) →
  let c' := (onDidReceiveMessage env (reorderSteps (id <$> ms)) c).1 in
  steps (planState c') = ls ∧ indices_fresh c'.
Proof.
  intros Hnd HR Hperm c'.
  assert (Hs : steps (planState c') = ls).
  { subst c'. rewrite reorderSteps_steps. apply reorder_from_mirror; [done..|].
    intros l Hl. by rewrite <- Hperm. }
  split; [done|]. apply reorder_fresh.
  assert (Hids : id <$> ms = omap (λ l, id <$> objects c !! l) ls).
  { clear -HR. induction HR as [|l s ls ms Hl _ IH]; [done|].
    cbn [fmap list_fmap omap list_omap]. rewrite Hl. cbn [fmap option_fmap option_map].
    f_equal. exact IH. }
  rewrite Hids, Hperm, <- step_ids_omap. done.
Qed.

Lemma mirror_index (c : Controller) (i : js_string) (k : nat) :
  steps_live c →
  mirror_findIndex (snap_steps (snapshot c)) i = Some k →
  ∃ l s, steps (planState c) !! k = Some l
         ∧ snap_steps (snapshot c) !! k = Some s
         ∧ objects c !! l = Some s ∧ id s = i.
Proof.
  intros Hlive Hk. unfold mirror_findIndex in Hk.
  destruct (list_find _ _) as [[k' s]|] eqn:E; [|done]. injection Hk as ->.
  apply list_find_Some in E as (Hs & Hid & _).
  destruct (Forall2_lookup_r _ _ _ _ _ (snapshot_Forall2 c Hlive) Hs)
    as (l & Hl & Hls).
  eauto 8.
Qed.





(** ** Drag and drop *)

Lemma splice_in_perm {A} (at_ : nat) (x : A) (xs : list A) :
  splice_in at_ x xs ≡ₚ x :: xs.
Proof.
  unfold splice_in. rewrite <- Permutation_middle. by rewrite take_drop.
Qed.

Lemma splice_in_lookup {A} (at_ : nat) (x : A) (xs : list A) :
  splice_in at_ x xs !! Nat.min at_ (length xs) = Some x.
Proof.
  unfold splice_in. apply list_lookup_middle. by rewrite length_take.
Qed.

Lemma Forall2_splice_in {A B} (R : A → B → Prop) at_ x y xs ys :
  R x y → Forall2 R xs ys → Forall2 R (splice_in at_ x xs) (splice_in at_ y ys).
Proof.
  intros Hxy H. unfold splice_in. apply Forall2_app; [by apply Forall2_take|].
  constructor; [done|by apply Forall2_drop].
Qed.

(** X20.  Dropping the card of [dropped] on the card of another step, with
    the mirror in step with a live plan of distinct identifiers: the
    listener sends a reorder message after which the controller's list is
    the old one with the dropped object taken out and put back at the
    target's old position (upper half) or one after it (lower half), counted
    in the list without the dropped object.  No step is lost, display
    indices are fresh, and the dropped object ends at that position, or at
    the end when the position is beyond it. *)
Theorem drop_moves_step (c : Controller) (env : Env)
    (dropped stepId : js_string) (upper_half : bool) (d t : nat) :
  NoDup (step_ids c) → steps_live c →
  let ms := snap_steps (snapshot c) in
  dropped ≠ [] →
  mirror_findIndex ms dropped = Some d →
  mirror_findIndex ms stepId = Some t →
  d ≠ t →
  let at_ := if upper_half then t else S t in
  ∃ m l, onDrop ms (Some dropped) true stepId upper_half = Some m
         ∧ steps (planState c) !! d = Some l
         ∧ let c' := (onDidReceiveMessage env m c).1 in
           steps (planState c') = splice_in at_ l (delete d (steps (planState c)))
           ∧ steps (planState c') ≡ₚ steps (planState c)
           ∧ indices_fresh c'
           ∧ steps (planState c')
               !! Nat.min at_ (length (steps (planState c)) - 1) = Some l.
Proof.
  intros Hnd Hlive ms Hne Hd Ht Hdt at_.
  destruct (mirror_index c dropped d Hlive Hd) as (l & s & Hl & Hs & Hls & _).
  unfold onDrop. destruct dropped as [|u dropped]; [done|].
  rewrite Hd, Ht. rewrite decide_False by done. fold ms in Hs. rewrite Hs.
  eexists. exists l. split; [|split]; [replace (t + 1)%nat with (S t) by lia; done|done|].
  assert (Hperm : splice_in at_ l (delete d (steps (planState c)))
                  ≡ₚ steps (planState c)).
  { rewrite splice_in_perm. symmetry. by apply delete_Permutation. }
  destruct (reorder_rearranged c env
              (splice_in at_ l (delete d (steps (planState c))))
              (splice_in at_ s (delete d ms)) Hnd) as [Hsteps Hfresh].
  { apply Forall2_splice_in; [done|]. apply Forall2_delete.
    by apply snapshot_Forall2. }
  { done. }
  cbv zeta. fold at_. split; [exact Hsteps|]. split; [by rewrite Hsteps|].
  split; [exact Hfresh|]. rewrite Hsteps.
  replace (length (steps (planState c)) - 1)%nat
    with (length (delete d (steps (planState c)))).
  - apply splice_in_lookup.
  - rewrite length_delete; [done|]. by eexists.
Qed.

Lemma drop_moves_step_witness :
  ∃ m l, onDrop (snap_steps (snapshot demo)) (Some (lit "a")) true (lit "c") true
         = Some m
         ∧ steps (planState demo) !! 0%nat = Some l
         ∧ let c' := (onDidReceiveMessage {| now := 2000; uuid := lit "u" |}
                        m demo).1 in
           steps (planState c') = splice_in 2 l (delete 0%nat (steps (planState demo)))
           ∧ steps (planState c') ≡ₚ steps (planState demo)
           ∧ indices_fresh c'
           ∧ steps (planState c')
               !! Nat.min 2 (length (steps (planState demo)) - 1) = Some l.
Proof.
  refine (drop_moves_step demo {| now := 2000; uuid := lit "u" |}
            (lit "a") (lit "c") true 0 2 _ _ _ _ _ _).
  - apply (bool_decide_unpack _). vm_compute. reflexivity.
  - apply createPlan_well_formed.
  - done.
  - vm_compute. reflexivity.
  - vm_compute. reflexivity.
  - lia.
Defined.

(** ** The Add Step button *)

Lemma ids_NoDup_steps (c : Controller) :
  NoDup (step_ids c) → steps_live c → NoDup (steps (planState c)).
Proof.
  rewrite step_ids_omap. unfold steps_live.
  induction (steps (planState c)) as [|l ss IH]; intros Hnd Hlive; [constructor|].
  destruct (Hlive l) as [s Hs]; [left|].
  cbn [omap list_omap] in Hnd. rewrite Hs in Hnd. cbn [fmap option_fmap option_map] in Hnd.
  apply NoDup_cons in Hnd as [Hnotin Hnd].
  apply NoDup_cons. split.
  - intros Hin. apply Hnotin. apply list_elem_of_omap. exists l.
    split; [done|]. by rewrite Hs.
  - apply IH; [done|]. intros l' Hl'. apply Hlive. by right.
Qed.

(** The step that the mirror shows last is found at the last position. *)
Lemma findIndex_of_last (c : Controller) (s : PlanStep) :
  NoDup (step_ids c) → steps_live c →
  last (snap_steps (snapshot c)) = Some s →
  findIndex (objects c) (steps (planState c)) (id s)
  = Some (pred (length (steps (planState c)))).
Proof.
  intros Hnd Hlive Hlast.
  pose proof (snapshot_Forall2 c Hlive) as HR.
  pose proof (Forall2_length _ _ _ HR) as Hlen.
  rewrite last_lookup, <- Hlen in Hlast.
  destruct (Forall2_lookup_r _ _ _ _ _ HR Hlast) as (l & Hl & Hls).
  assert (Hid : has_id (objects c) (id s) l) by (unfold has_id; by rewrite Hls).
  destruct (findIndex (objects c) (steps (planState c)) (id s)) as [k|] eqn:E.
  - apply findIndex_Some in E as (l' & Hl' & Hid' & _).
    assert (l = l') as <-.
    { rewrite step_ids_omap in Hnd.
      eapply (unique_ids_same_object _ _ l l' (id s) Hnd);
        [by eapply list_elem_of_lookup_2|by eapply list_elem_of_lookup_2|done..]. }
    f_equal. eapply NoDup_lookup; [by apply ids_NoDup_steps|done..].
  - exfalso. eapply (proj1 (findIndex_None _ _ _) E l); [|done].
    by eapply list_elem_of_lookup_2.
Qed.

(** X21.  The Add Step button, with the mirror in step with a live plan of
    distinct identifiers: the controller puts the new step at the end of the
    plan, whatever the plan holds; the new step has the identifier just
    drawn, the text [New plan step.], status [edited] and the last display
    index. *)
Theorem add_button_appends (c : Controller) (env : Env) :
  NoDup (step_ids c) → steps_live c →
  let c' := (onDidReceiveMessage env
               (addStepButton_click (snap_steps (snapshot c))) c).1 in
  let new := fresh (dom (objects c)) in
  steps (planState c') = steps (planState c) ++ [new]
  ∧ id <$> objects c' !! new = Some (uuid env)
  ∧ content <$> objects c' !! new = Some (lit "New plan step.")
  ∧ status <$> objects c' !! new = Some (Some edited)
  ∧ originalIndex <$> objects c' !! new
    = Some (Z.of_nat (length (steps (planState c))) + 1).
Proof.
  intros Hnd Hlive c' new.
  assert (Hsteps : steps (planState c') = steps (planState c) ++ [new]).
  { subst c'. unfold addStepButton_click, onDidReceiveMessage. simpl.
    destruct (last _) as [s|] eqn:Hlast; simpl; [|done].
    destruct (id s) as [|a0 a] eqn:Hs; [done|].
    rewrite <- Hs, (findIndex_of_last c s Hnd Hlive Hlast).
    pose proof (Forall2_length _ _ _ (snapshot_Forall2 c Hlive)) as Hlen.
    assert (length (steps (planState c)) ≠ 0)%nat.
    { rewrite Hlen. intros H0. apply length_zero_iff_nil in H0.
      simpl in H0. by rewrite H0 in Hlast. }
    rewrite take_ge, drop_ge by lia. done. }
  split; [exact Hsteps|].
  assert (Hobj : objects c'
                 = updateStepIndices (steps (planState c) ++ [new])
                     (<[new := {| id := uuid env; content := lit "New plan step.";
                                  status := Some edited; originalIndex := -1 |}]>
                        (objects c))).
  { rewrite <- Hsteps. subst c'. unfold addStepButton_click.
    apply addStep_objects. }
  rewrite Hobj. unfold updateStepIndices at 1 2 3.
  rewrite update_indices_id, update_indices_content, update_indices_status.
  rewrite lookup_insert_eq. split; [done|]. split; [done|]. split; [done|].
  apply indices_after_update.
  - apply NoDup_app. split; [by apply ids_NoDup_steps|].
    split; [|apply NoDup_singleton].
    intros l Hl Hin. apply list_elem_of_singleton in Hin as ->.
    by apply (fresh_not_listed c Hlive).
  - intros l Hl. apply elem_of_app in Hl as [Hl|Hl].
    + destruct (decide (l = new)) as [->|Hne];
        [by rewrite lookup_insert_eq|rewrite lookup_insert_ne by done].
      by apply Hlive.
    + apply list_elem_of_singleton in Hl as ->. by rewrite lookup_insert_eq.
  - apply list_lookup_middle. done.
Qed.

Lemma add_button_appends_witness :
  steps (planState (onDidReceiveMessage {| now := 2000; uuid := lit "u" |}
                      (addStepButton_click (snap_steps (snapshot demo))) demo).1)
  = steps (planState demo) ++ [fresh (dom (objects demo))].
Proof.
  refine (proj1 (add_button_appends demo {| now := 2000; uuid := lit "u" |} _ _)).
  - apply (bool_decide_unpack _). vm_compute. reflexivity.
  - apply createPlan_well_formed.
Defined.

(** ** Saving an edit *)

(** Looking a step up in the mirror finds the value of the object that the
    controller finds. *)
Lemma find_in_mirror (objs : gmap loc PlanStep) (i : js_string)
    (ls : list loc) (ms : list PlanStep) :
  Forall2 (λ l s, objs !! l = Some s) ls ms →
  snd <$> list_find (λ s, id s = i) ms = find_step objs ls i ≫= (objs !!.).
Proof.
  unfold find_step. induction 1 as [|l s ls ms Hl _ IH]; [done|].
  cbn [list_find].
  assert (Hiff : has_id objs i l ↔ id s = i).
  { unfold has_id. rewrite Hl. simpl. split; congruence. }
  destruct (decide (id s = i)) as [Hid|Hid].
  - rewrite decide_True by (by apply Hiff). simpl. by rewrite Hl.
  - rewrite decide_False by (by rewrite Hiff).
    destruct (list_find (λ s, id s = i) ms) as [[k s']|];
      destruct (list_find (has_id objs i) ls) as [[k' l']|]; done.
Qed.

(** X22.  Saving an edit of a step of the plan, with the mirror in step with
    a live plan: the webview posts [editStep] exactly when the text differs
    from the step's content.  When it posts nothing the controller would
    have ignored the message; when it posts, the controller sets the content
    of the step it finds to the text, marks it [edited] and broadcasts: a
    posted edit is never dropped. *)
Theorem save_edit_agrees (c : Controller) (env : Env) (i text : js_string) :
  steps_live c → i ∈ step_ids c →
  let ms := snap_steps (snapshot c) in
  let r := onDidReceiveMessage env (editStep i text) c in
  (exitEditMode_save ms i text = None ∧ r = (c, []))
  ∨ (exitEditMode_save ms i text = Some (editStep i text)
     ∧ ∃ l, find_step (objects c) (steps (planState c)) i = Some l
            ∧ content <$> objects c !! l ≠ Some text
            ∧ content <$> objects r.1 !! l = Some text
            ∧ status <$> objects r.1 !! l = Some (Some edited)
            ∧ r.2 = [post_stateUpdated (snapshot r.1)]).
Proof.
  intros Hlive Hin ms r.
  apply find_step_is_Some in Hin as [l Hfind].
  pose proof (find_in_mirror (objects c) i _ _ (snapshot_Forall2 c Hlive)) as Hm.
  rewrite Hfind in Hm. cbn [mbind option_bind] in Hm. fold ms in Hm.
  unfold exitEditMode_save. rewrite Hm.
  subst r. unfold onDidReceiveMessage. cbn [dispatch]. rewrite Hfind.
  destruct (decide (content <$> objects c !! l = Some text)) as [Heq|Hne].
  - left. done.
  - right. split; [done|]. exists l. split; [done|]. split; [done|].
    destruct (Hlive l) as [s Hs]; [by apply find_step_Some in Hfind as [? _]|].
    simpl. rewrite lookup_alter_eq, Hs. done.
Qed.

Lemma save_edit_agrees_witness :
  exitEditMode_save (snap_steps (snapshot demo)) (lit "b") (lit "Changed text")
  = Some (editStep (lit "b") (lit "Changed text")).
Proof.
  destruct (save_edit_agrees demo {| now := 2000; uuid := lit "u" |}
              (lit "b") (lit "Changed text")) as [[H _]|[H _]].
  - apply createPlan_well_formed.
  - apply (bool_decide_unpack _). vm_compute. reflexivity.
  - vm_compute in H. discriminate H.
  - exact H.
Defined.

(** ** Creating the plan from the answer of the API *)

Lemma createPlan_step_at task context t raw k :
  step_at (createPlan task context t raw) k
  = (λ p, {| id := p.1; content := p.2; status := None;
             originalIndex := Z.of_nat k + 1 |}) <$> raw !! k.
Proof.
  unfold step_at. simpl.
  destruct (decide (k < length raw)%nat) as [Hlt|Hge].
  - rewrite lookup_seq_lt by done. simpl.
    rewrite createPlan_objects, decide_True by lia. by rewrite Nat.sub_0_r.
  - rewrite lookup_seq_ge by lia. simpl.
    rewrite lookup_ge_None_2 by lia. done.
Qed.

(** X23.  The plan that the [generatePlan] command shows.  A plan is shown
    only when the API answers with a first choice whose content yields at
    least one step under [parsePlanIntoSteps]; the plan then has one step per
    parsed section, in order, each with the identifier drawn for it, the
    section's text, no status and display index position + 1, under the
    task given, with well-formed state. *)
Theorem generated_plan (task context : js_string) (t : Z)
    (uuid_at : nat → js_string) (answer : completion ChatCompletion)
    (c : Controller) :
  planFromResponse task context t uuid_at answer = Some (PlanShown c) →
  ∃ response plan,
    answer = Normal response
    ∧ first_content response = Normal (Some plan)
    ∧ parsePlanIntoSteps plan ≠ []
    ∧ length (steps (planState c)) = length (parsePlanIntoSteps plan)
    ∧ (∀ k, step_at c k
            = (λ text, {| id := uuid_at k; content := text; status := None;
                          originalIndex := Z.of_nat k + 1 |})
                <$> parsePlanIntoSteps plan !! k)
    ∧ taskDescription (planState c) = task
    ∧ lastModified (planState c) = t
    ∧ well_formed c ∧ indices_fresh c.
Proof.
  unfold planFromResponse. intros H.
  destruct answer as [response|e]; simpl in H;
    [|by destruct (error_message e)].
  destruct (first_content response) as [[[|p0 plan]|]|e] eqn:Hfirst;
    simpl in H; try done; [|by destruct (error_message e)].
  destruct (parsePlanIntoSteps (p0 :: plan)) as [|r0 raw] eqn:Hparse; [done|].
  injection H as <-. exists response, (p0 :: plan).
  rewrite Hparse. split; [done|]. split; [done|]. split; [done|].
  change ((uuid_at 0%nat, r0) :: imap _ raw)
    with (imap (λ index text, (uuid_at index, text)) (r0 :: raw)).
  split; [|split; [|split; [done|split; [done|split]]]].
  - cbn [createPlan planState steps]. by rewrite length_seq, length_imap.
  - intros k. rewrite createPlan_step_at, list_lookup_imap.
    by destruct ((r0 :: raw) !! k).
  - apply createPlan_well_formed.
  - apply createPlan_indices_fresh.
Qed.

Lemma generated_plan_witness :
  ∃ response plan,
    Normal {| choices := [ {| choice_message :=
                Some {| msg_content :=
                  Some (lit "Step 1: Install the dependencies now.") |} |} ] |}
    = Normal response
    ∧ first_content response = Normal (Some plan)
    ∧ parsePlanIntoSteps plan ≠ [].
Proof.
  destruct (generated_plan (lit "Add JWT auth") (lit "Project: demo") 1000
              (λ k, [N.of_nat k])
              (Normal {| choices := [ {| choice_message :=
                  Some {| msg_content :=
                    Some (lit "Step 1: Install the dependencies now.") |} |} ] |})
              _ eq_refl) as (response & plan & H1 & H2 & H3 & _).
  by exists response, plan.
Defined.

(** ** The request for an alternative *)

Section OtherLines.
Variable f : nat → js_string → js_string.

Lemma numbered_shift n (xs : list js_string) :
  imap ((λ idx s, ((n + idx)%nat, f (n + idx) s)) ∘ S) xs
  = imap (λ idx s, ((S n + idx)%nat, f (S n + idx) s)) xs.
Proof.
  apply imap_ext. intros idx s _. simpl. by rewrite Nat.add_succ_r.
Qed.

Lemma lines_shift n (xs : list js_string) :
  imap ((λ idx s, f (n + idx) s) ∘ S) xs = imap (λ idx s, f (S n + idx) s) xs.
Proof.
  apply imap_ext. intros idx s _. simpl. by rewrite Nat.add_succ_r.
Qed.

(** An index that no position has filters nothing out. *)
Lemma other_lines_all (stepIndex : Z) n (xs : list js_string) :
  (∀ idx, (idx < length xs)%nat → Z.of_nat (n + idx) ≠ stepIndex) →
  map snd (filter (λ p, Z.of_nat (fst p) ≠ stepIndex)
             (imap (λ idx s, ((n + idx)%nat, f (n + idx) s)) xs))
  = imap (λ idx s, f (n + idx) s) xs.
Proof.
  revert n. induction xs as [|x xs IH]; intros n Hne; [done|].
  rewrite !imap_cons, numbered_shift, lines_shift.
  rewrite filter_cons_True by (simpl; apply (Hne 0%nat); simpl; lia).
  cbn [map snd]. f_equal. apply (IH (S n)). intros idx Hidx.
  replace (S n + idx)%nat with (n + S idx)%nat by lia. apply Hne. simpl. lia.
Qed.

(** The index of a position filters out that position and nothing else. *)
Lemma other_lines_delete n k (xs : list js_string) :
  map snd (filter (λ p, Z.of_nat (fst p) ≠ Z.of_nat (n + k))
             (imap (λ idx s, ((n + idx)%nat, f (n + idx) s)) xs))
  = delete k (imap (λ idx s, f (n + idx) s) xs).
Proof.
  revert n k. induction xs as [|x xs IH]; intros n k; [by destruct k|].
  rewrite !imap_cons, numbered_shift, lines_shift. destruct k as [|k].
  - rewrite filter_cons_False by (simpl; intros H; by apply H).
    cbn [delete list_delete]. rewrite Nat.add_0_r.
    apply (other_lines_all (Z.of_nat n) (S n)). intros idx _. lia.
  - rewrite filter_cons_True by (simpl; lia).
    cbn [map snd delete list_delete]. f_equal.
    replace (n + S k)%nat with (S n + k)%nat by lia. apply (IH (S n)).
Qed.
End OtherLines.

Lemma indexOf_position (ss : list loc) (l : loc) (k : nat) :
  NoDup ss → ss !! k = Some l → indexOf ss l = Z.of_nat k.
Proof.
  intros Hnd Hk. unfold indexOf.
  destruct (list_find (λ l', l' = l) ss) as [[k' l']|] eqn:E.
  - apply list_find_Some in E as (Hk' & -> & _).
    f_equal. by eapply NoDup_lookup.
  - apply list_find_None in E. rewrite Forall_forall in E.
    exfalso. eapply E; [by eapply list_elem_of_lookup_2|done].
Qed.

(** Changing a field other than the content leaves the contents read off
    the plan as they were. *)
Lemma contents_after_alter (f : PlanStep → PlanStep) (l : loc)
    (objs : gmap loc PlanStep) (ss : list loc) :
  (∀ s, content (f s) = content s) →
  (∀ a, a ∈ ss → is_Some (objs !! a)) →
  omap (λ l', content <$> alter f l objs !! l') ss
  = content <$> omap (λ l', objs !! l') ss.
Proof.
  intros Hf. induction ss as [|a ss IH]; intros Hlive; [done|].
  destruct (Hlive a) as [sa Hsa]; [left|].
  cbn [omap list_omap]. rewrite Hsa.
  assert (content <$> alter f l objs !! a = Some (content sa)) as ->.
  { destruct (decide (l = a)) as [->|Hne].
    - rewrite lookup_alter_eq, Hsa. simpl. by rewrite Hf.
    - rewrite lookup_alter_ne, Hsa by done. done. }
  cbn [fmap list_fmap]. f_equal. apply IH. intros l' Hl'. apply Hlive. by right.
Qed.

(** X24.  What the refinement of a rejected step is asked with.  In a
    well-formed plan, rejecting the step found at position [k] starts one
    call whose target is that object and whose rejected text is its
    content; the other steps listed in the prompt are the contents of the
    plan numbered by position from 1, without line [k]: the rejected step is
    left out and the others keep their numbers. *)
Theorem reject_request (c : Controller) (env : Env) (i : js_string)
    (l : loc) (k : nat) :
  well_formed c →
  find_step (objects c) (steps (planState c)) i = Some l →
  steps (planState c) !! k = Some l →
  let c' := (onDidReceiveMessage env (rejectStep i) c).1 in
  ∃ call,
    inflight c' = inflight c ++ [call]
    ∧ target call = l
    ∧ Some (arg_originalStep call) = content <$> objects c !! l
    ∧ arg_allSteps call = content <$> snap_steps (snapshot c)
    ∧ otherSteps (arg_allSteps call) (arg_stepIndex call)
      = join newline
          (delete k
             (imap (λ idx step, lit "Step " ++ decimal (idx + 1) ++ lit ": " ++ step)
                (content <$> snap_steps (snapshot c)))).
Proof.
  intros [Hnd Hlive] Hfind Hk c'.
  destruct (Hlive l) as [s Hs]; [by eapply list_elem_of_lookup_2|].
  pose proof (contents_after_alter (set_status (Some rejected)) l (objects c)
                (steps (planState c)) (λ _, eq_refl) Hlive) as Hall.
  change (omap (λ l, objects c !! l) (steps (planState c)))
    with (snap_steps (snapshot c)) in Hall.
  subst c'. unfold onDidReceiveMessage. cbn [dispatch]. rewrite Hfind.
  eexists. split; [reflexivity|]. cbn [target arg_originalStep arg_allSteps arg_stepIndex].
  split; [done|]. split.
  { rewrite lookup_alter_eq, Hs. done. }
  split; [exact Hall|].
  rewrite Hall, (indexOf_position _ l k Hnd Hk). unfold otherSteps. f_equal.
  apply (other_lines_delete
           (λ idx step, lit "Step " ++ decimal (idx + 1) ++ lit ": " ++ step)
           0 k).
Qed.

Lemma reject_request_witness :
  ∃ call,
    inflight (onDidReceiveMessage {| now := 2000; uuid := lit "u" |}
                (rejectStep (lit "b")) demo).1 = inflight demo ++ [call]
    ∧ otherSteps (arg_allSteps call) (arg_stepIndex call)
      = lit "Step 1: Install the dependencies.
Step 3: Wire the login route.".
Proof.
  destruct (reject_request demo {| now := 2000; uuid := lit "u" |} (lit "b")
              1%nat 1%nat) as (call & H1 & _ & _ & _ & H2).
  - apply createPlan_well_formed.
  - vm_compute. reflexivity.
  - vm_compute. reflexivity.
  - exists call. split; [exact H1|]. rewrite H2. vm_compute. reflexivity.
Defined.

(** * Identifiers along a session *)

(** Every task of the controller leaves a live object at every position. *)
Lemma step_live e c : steps_live c → steps_live (step e c).1.
Proof.
  intros Hlive. destruct e as [env m|k openai t]; simpl.
  - unfold onDidReceiveMessage.
    destruct m as [i|i|i text|newOrder|i|afterId text| |text].
    + simpl. destruct (find_step _ _ i) as [found|]; simpl; [|done].
      intros l Hl. simpl. apply live_alter. by apply Hlive.
    + simpl. destruct (find_step _ _ i) as [found|]; simpl; [|done].
      intros l Hl. simpl. apply live_alter. by apply Hlive.
    + simpl. destruct (find_step _ _ i) as [found|]; simpl; [|done].
      case_decide; simpl; [done|].
      intros l Hl. simpl. apply live_alter. by apply Hlive.
    + simpl. intros l Hl. simpl in *. apply update_indices_is_Some.
      by apply reorder_found in Hl as [_ ?].
    + simpl. intros l Hl. simpl in *. apply update_indices_is_Some.
      apply list_elem_of_filter in Hl as [_ Hl]. by apply Hlive.
    + destruct (addStep_steps env afterId text c) as [n Hn].
      pose proof (fresh_not_listed c Hlive) as Hfresh.
      intros l Hl.
      change (l ∈ steps (planState (onDidReceiveMessage env (addStep afterId text) c).1))
        in Hl.
      change (is_Some (objects (onDidReceiveMessage env (addStep afterId text) c).1 !! l)).
      rewrite addStep_objects. apply update_indices_is_Some.
      rewrite handler_steps_dispatch, Hn, insert_middle_perm in Hl.
      apply elem_of_cons in Hl as [->|Hl].
      * by rewrite lookup_insert_eq.
      * rewrite lookup_insert_ne by (intros <-; done). by apply Hlive.
    + done.
    + done.
  - destruct (inflight c !! k) as [call|]; simpl; [|done].
    unfold refine_continuation. destruct (refineStep _ _ _ _ _ _); simpl; [|done].
    intros l Hl. simpl. apply live_alter. by apply Hlive.
Qed.

(** An identifier of the plan after a task was in the plan before, or is the
    one drawn for an [addStep]. *)
Lemma ids_after_step e c i :
  steps_live c →
  i ∈ step_ids (step e c).1 →
  i ∈ step_ids c
  ∨ ∃ env afterId text, e = Receive env (addStep afterId text) ∧ i = uuid env.
Proof.
  intros Hlive Hi.
  destruct (event_kinds e) as [Hs|[Hp|[[env ->]|(env & text & ->)]]];
    [|left|by left|by left].
  - destruct e as [env m|]; [|done].
    destruct m as [| | |newOrder|j|afterId text| |]; try done.
    + left. apply elem_of_step_ids in Hi as (l & Hl & Hid).
      simpl step in Hl, Hid. rewrite reorderSteps_steps in Hl.
      unfold has_id in Hid. rewrite reorderSteps_objects in Hid.
      unfold updateStepIndices in Hid. rewrite update_indices_id in Hid.
      apply elem_of_step_ids. exists l. split; [|done].
      by apply reorder_found in Hl as [? _].
    + left. destruct (proj1 (proj2 identifiers_kept) c env j) as (Hids & _).
      rewrite Hids in Hi. by apply list_elem_of_filter in Hi as [_ ?].
    + destruct (proj2 (proj2 identifiers_kept) c env afterId text Hlive)
        as (Hperm & _).
      rewrite Hperm in Hi. apply elem_of_cons in Hi as [->|Hi]; [right|by left].
      by exists env, afterId, text.
  - destruct (proj1 identifiers_kept c e Hp) as (_ & _ & Hids). by rewrite <- Hids.
Qed.

Section Source.
Variable g : nat → js_string.

Lemma reachable_live s : reachable g s → steps_live (controller s).
Proof.
  induction 1 as [task context t rawSteps|i s _ IH].
  - apply createPlan_well_formed.
  - by apply step_live.
Qed.

(** The plan holds only identifiers that the source has returned. *)
Lemma reachable_drawn s i :
  reachable g s → i ∈ step_ids (controller s) → ∃ j, (j < drawn s)%nat ∧ i = g j.
Proof.
  intros Hr. revert i. induction Hr as [task context t rawSteps|inp s Hr IH]; intros i Hi.
  - apply elem_of_step_ids in Hi as (l & Hl & Hid).
    simpl in Hl, Hid. apply elem_of_seq in Hl. rewrite length_imap in Hl.
    unfold has_id in Hid. rewrite createPlan_objects, decide_True in Hid by lia.
    rewrite list_lookup_imap in Hid.
    destruct (rawSteps !! (l - 0)%nat) as [text|] eqn:E; [|done].
    simpl in Hid. injection Hid as <-. exists (l - 0)%nat. simpl. split; [lia|done].
  - apply ids_after_step in Hi as [Hi|(env & afterId & text & He & ->)];
      [| |by apply reachable_live].
    + destruct (IH i Hi) as (j & Hj & ->). exists j. simpl. split; [lia|done].
    + destruct inp as [t m|]; [|done]. simpl in He. injection He as <- ->.
      exists (drawn s). simpl. split; [lia|done].
Qed.

Lemma reachable_fresh s :
  distinct_draws g → reachable g s → g (drawn s) ∉ step_ids (controller s).
Proof.
  intros Hd Hr Hin. destruct (reachable_drawn s _ Hr Hin) as (j & Hj & Heq).
  apply Hd in Heq. lia.
Qed.

Lemma reachable_nonempty s :
  nonempty_draws g → reachable g s → [] ∉ step_ids (controller s).
Proof.
  intros Hn Hr Hin. destruct (reachable_drawn s _ Hr Hin) as (j & _ & Heq).
  by apply (Hn j).
Qed.
End Source.

Lemma demo_source_distinct : distinct_draws demo_source.
Proof. intros j k H. injection H as H. lia. Qed.

Lemma demo_source_nonempty : nonempty_draws demo_source.
Proof. intros k. done. Qed.

(** C7.  In every session that the program can be in, with a source of
    identifiers that returns no value twice and never the empty string: on a
    well-formed plan, [addStep afterId content] draws one identifier, which
    no step of the plan has, and creates one new object with that
    identifier, the given content and status [edited]; the new plan is the
    old one with that object right after the first step whose identifier is
    [afterId], or at the end when [afterId] is [null] or names no step;
    every other object keeps identifier, content and status; the
    identifiers of the new plan are the new one and the old ones; and the
    display indices of the new plan are 1, 2, 3, ... *)
Theorem addStep_inserts (g : nat → js_string) (s : Session) (t : Z)
    (afterId : option js_string) (text : js_string) :
  distinct_draws g → nonempty_draws g → reachable g s →
  well_formed (controller s) →
  let c := controller s in
  let s' := (session_step g (Message t (addStep afterId text)) s).1 in
  let c' := controller s' in
  let new := fresh (dom (objects c)) in
  let ss := steps (planState c) in
  ((g (drawn s) ∉ step_ids c) ∧ drawn s' = S (drawn s))
  ∧ (new ∉ ss)
  ∧ steps (planState c')
    = match afterId ≫= findIndex (objects c) ss with
      | Some k => take (S k) ss ++ new :: drop (S k) ss
      | None => ss ++ [new]
      end
  ∧ (id <$> objects c' !! new = Some (g (drawn s))
     ∧ content <$> objects c' !! new = Some text
     ∧ status <$> objects c' !! new = Some (Some edited))
  ∧ (∀ l, l ≠ new →
       id <$> objects c' !! l = id <$> objects c !! l
       ∧ content <$> objects c' !! l = content <$> objects c !! l
       ∧ status <$> objects c' !! l = status <$> objects c !! l)
  ∧ step_ids c' ≡ₚ g (drawn s) :: step_ids c
  ∧ indices_fresh c'.
Proof.
  intros Hd Hn Hr Hwf c s' c' new ss.
  destruct (addStep_at c {| now := t; uuid := g (drawn s) |} afterId text Hwf
              (reachable_nonempty g s Hn Hr))
    as (Hnew & Hsteps & Hobj & Hrest & Hfresh).
  destruct (proj2 (proj2 identifiers_kept) c {| now := t; uuid := g (drawn s) |}
              afterId text (proj2 Hwf)) as (Hperm & _).
  split; [split; [by apply reachable_fresh|simpl; lia]|].
  split; [exact Hnew|]. split; [exact Hsteps|]. split; [exact Hobj|].
  split; [exact Hrest|]. split; [exact Hperm|exact Hfresh].
Qed.

Lemma addStep_inserts_witness :
  (demo_source 3 ∉ step_ids (controller demo_session))
  ∧ steps (planState (controller
             (session_step demo_source
                (Message 2000 (addStep (Some (lit "a")) (lit "New plan step.")))
                demo_session).1))
    = [0; 3; 1; 2]%nat.
Proof.
  destruct (addStep_inserts demo_source demo_session 2000 (Some (lit "a"))
              (lit "New plan step.") demo_source_distinct demo_source_nonempty
              (reachable_start _ _ _ _ _) (createPlan_well_formed _ _ _ _))
    as ((Hfresh & _) & _ & Hsteps & _).
  split; [exact Hfresh|]. rewrite Hsteps. vm_compute. reflexivity.
Defined.

(** C8.  Accept, reject, edit and the continuation of a refinement keep the
    list of steps and the identifier of every object, so the identifiers of
    the plan are the same list.  [deleteStep i] leaves the identifiers of the
    plan other than [i], in order, and changes no object's identifier; in a
    plan with distinct identifiers that has [i], the old identifiers are [i]
    and the new ones.  [addStep] adds one identifier, the one just drawn, and
    changes no other object's identifier.  In every session that the program
    can be in, the plan holds only identifiers that the source returned
    earlier; so with a source that returns no value twice, the identifier
    that [addStep] draws is none of the plan's, and distinct identifiers
    stay distinct. *)
Theorem identifiers_stable :
  (∀ c e, in_place e →
     steps (planState (step e c).1) = steps (planState c)
     ∧ (∀ l, id <$> objects (step e c).1 !! l = id <$> objects c !! l)
     ∧ step_ids (step e c).1 = step_ids c)
  ∧ (∀ c env i,
       let c' := (step (Receive env (deleteStep i)) c).1 in
       step_ids c' = filter (λ j, j ≠ i) (step_ids c)
       ∧ (∀ l, id <$> objects c' !! l = id <$> objects c !! l)
       ∧ (NoDup (step_ids c) → i ∈ step_ids c → step_ids c ≡ₚ i :: step_ids c'))
  ∧ (∀ c env afterId text,
       steps_live c →
       let c' := (step (Receive env (addStep afterId text)) c).1 in
       step_ids c' ≡ₚ uuid env :: step_ids c
       ∧ (∀ l, l ≠ fresh (dom (objects c)) →
            id <$> objects c' !! l = id <$> objects c !! l))
  ∧ (∀ g s t afterId text,
       distinct_draws g → reachable g s →
       let c := controller s in
       let s' := (session_step g (Message t (addStep afterId text)) s).1 in
       (∀ i, i ∈ step_ids c → ∃ j, (j < drawn s)%nat ∧ i = g j)
       ∧ (g (drawn s) ∉ step_ids c)
       ∧ step_ids (controller s') ≡ₚ g (drawn s) :: step_ids c
       ∧ drawn s' = S (drawn s)
       ∧ (NoDup (step_ids c) → NoDup (step_ids (controller s')))).
Proof.
  destruct identifiers_kept as (Hplace & Hdelete & Hadd).
  split; [exact Hplace|]. split; [exact Hdelete|]. split.
  - intros c env afterId text Hlive c'.
    destruct (Hadd c env afterId text Hlive) as (Hperm & Hids & _). by split.
  - intros g s t afterId text Hd Hr c s'.
    pose proof (reachable_fresh g s Hd Hr) as Hfresh.
    destruct (Hadd c {| now := t; uuid := g (drawn s) |} afterId text
                (reachable_live g s Hr)) as (Hperm & _).
    split; [intros i; by apply reachable_drawn|]. split; [exact Hfresh|].
    split; [exact Hperm|]. split; [simpl; lia|].
    intros Hnd.
    assert (Hp : step_ids (controller s') ≡ₚ g (drawn s) :: step_ids c)
      by exact Hperm.
    rewrite Hp. by constructor.
Qed.

(** On the three-step plan, whose identifiers are the first three that the
    source returned, [addStep] draws the fourth. *)
Lemma identifiers_stable_witness :
  (demo_source 3 ∉ step_ids (controller demo_session))
  ∧ NoDup (step_ids (controller
             (session_step demo_source
                (Message 2000 (addStep (Some (lit "a")) (lit "New plan step.")))
                demo_session).1)).
Proof.
  destruct (proj2 (proj2 (proj2 identifiers_stable)) demo_source demo_session 2000
              (Some (lit "a")) (lit "New plan step.") demo_source_distinct
              (reachable_start _ _ _ _ _)) as (_ & Hfresh & _ & _ & Hnd).
  split; [exact Hfresh|]. apply Hnd.
  apply (bool_decide_unpack _). vm_compute. reflexivity.
Defined.

(** * What [refineStep] returns *)






(** * The progress display *)




